(** * scipy.spatial.transform.Rotation: a shallow embedding over the reals

    The module [scipy/spatial/transform/rotation.py] converts between unit
    quaternions, direction cosine matrices, rotation vectors and Euler angle
    sequences.  This development embeds the class [Rotation] in Rocq and
    states its properties over exact real arithmetic: a numpy [float64] is
    read as a real number, [np.sin], [np.cos], [np.arctan2], [np.linalg.norm]
    as the corresponding real functions.  Rounding, NaN and signed zeros are
    outside this model. *)

From Stdlib Require Import Ascii String.
From Stdlib Require Import Reals Lra Lia Psatz List Bool Arith NArith.
Import ListNotations.

Local Open Scope R_scope.

(** ** Exceptions and the error monad *)

(** Every [raise] of the module, one constructor per message, and the two
    exceptions the interpreter itself raises on the paths of the module. *)
Inductive exn : Type :=
| ValueError_quat_shape      (* "Expected `quat` to have shape (4,) or (N x 4)" *)
| ValueError_zero_norm       (* "Found zero norm quaternions in `quat`." *)
| ValueError_dcm_shape       (* "Expected `dcm` to have shape (3, 3) or (N, 3, 3)" *)
| ValueError_rotvec_shape    (* "Expected `rot_vec` to have shape (3,) or (N, 3)" *)
| ValueError_axes_angles     (* "Number of axes specified in ... does not match number of angles" *)
| ValueError_mixed_sequence  (* "Cannot allow mixing of intrinsic and extrinsic rotations" *)
| ValueError_axis_sequence   (* "Invalid axis sequence ... for angles specified" *)
| ValueError_num_sequences   (* "Number of axis sequences specified ... match number of angle sequences" *)
| ValueError_three_angles    (* "For multiple rotations, expected 3 angles per sequence" *)
| UnboundLocalError_dcm      (* local variable 'dcm' referenced before assignment *)
| IndexError_shape.          (* tuple index out of range, on the shape of a 0-d array *)

Inductive result (A : Type) : Type :=
| Ok (a : A)
| Raise (e : exn).

Arguments Ok {A} a.
Arguments Raise {A} e.

Definition bind {A B : Type} (m : result A) (k : A -> result B) : result B :=
  match m with
  | Ok a => k a
  | Raise e => Raise e
  end.

Notation "x <- m ;; k" := (bind m (fun x => k))
  (at level 61, m at next level, right associativity).

Definition is_ok {A : Type} (m : result A) : bool :=
  match m with Ok _ => true | Raise _ => false end.

(** A loop [for x in xs: acc = body(acc, x)] whose body may raise. *)
Fixpoint for_each {A S : Type} (body : S -> A -> result S) (xs : list A) (acc : S)
  : result S :=
  match xs with
  | [] => Ok acc
  | x :: rest => acc' <- body acc x ;; for_each body rest acc'
  end.

(** [[f(x) for x in xs]] where [f] may raise: the first exception wins. *)
Fixpoint map_result {A B : Type} (f : A -> result B) (xs : list A) : result (list B) :=
  match xs with
  | [] => Ok []
  | x :: rest => y <- f x ;; ys <- map_result f rest ;; Ok (y :: ys)
  end.

(** ** numpy arrays of floats

    An array of rank 0 to 3 with its shape.  A rank 2 array carries the
    length of its rows and a rank 3 array the two trailing dimensions, so
    that the shapes (0, 4) and (0, 3, 3) exist. *)
Inductive ndarray : Type :=
| A0 (x : R)
| A1 (v : list R)
| A2 (n1 : nat) (m : list (list R))
| A3 (n1 n2 : nat) (t : list (list (list R))).

Definition ndim (a : ndarray) : nat :=
  match a with A0 _ => 0 | A1 _ => 1 | A2 _ _ => 2 | A3 _ _ _ => 3 end.

Definition shape (a : ndarray) : list nat :=
  match a with
  | A0 _ => []
  | A1 v => [length v]
  | A2 n1 m => [length m; n1]
  | A3 n1 n2 t => [length t; n1; n2]
  end.

(** The rows of a well-formed array have the lengths its shape announces. *)
Definition wf_ndarray (a : ndarray) : Prop :=
  match a with
  | A0 _ | A1 _ => True
  | A2 n1 m => Forall (fun r => length r = n1) m
  | A3 n1 n2 t =>
      Forall (fun m => length m = n1 /\ Forall (fun r => length r = n2) m) t
  end.

(** [shape[0]] and [shape[-1]]: an [IndexError] on a 0-d array. *)
Definition shape_first (a : ndarray) : result nat :=
  match shape a with
  | [] => Raise IndexError_shape
  | d :: _ => Ok d
  end.

Definition shape_last (a : ndarray) : result nat :=
  match rev (shape a) with
  | [] => Raise IndexError_shape
  | d :: _ => Ok d
  end.

Definition nat_list_eqb (l1 l2 : list nat) : bool :=
  if list_eq_dec Nat.eq_dec l1 l2 then true else false.

(** Comparisons of floats as booleans. *)
Definition Rltb (a b : R) : bool := if Rlt_dec a b then true else false.
Definition Rleb (a b : R) : bool := if Rle_dec a b then true else false.
Definition Reqb (a b : R) : bool := if Req_dec_T a b then true else false.

Definition Rsum (l : list R) : R := fold_right Rplus 0 l.

(** [np.linalg.norm(v)] and [scipy.linalg.norm(a, axis=1)] on one row. *)
Definition norm (v : list R) : R := sqrt (Rsum (map (fun x => x * x) v)).

Definition idx (v : list R) (i : nat) : R := nth i v 0.
Definition idx2 (m : list (list R)) (i j : nat) : R := nth j (nth i m []) 0.

(** [a[i] = x] on a row. *)
Fixpoint set_idx (v : list R) (i : nat) (x : R) : list R :=
  match v, i with
  | [], _ => []
  | _ :: rest, O => x :: rest
  | y :: rest, S i' => y :: set_idx rest i' x
  end.

(** ** The class [Rotation]

    [_quat] is the (N, 4) block of quaternions, one row [x; y; z; w] per
    rotation; [_single] records that the object was built from one
    unbatched input. *)
Record Rotation : Type := mkRotation {
  _single : bool;
  _quat : list (list R)
}.

(** [quat.ndim not in [1, 2] or quat.shape[-1] != 4].  The [or] does not
    evaluate [shape[-1]] on a 0-d array. *)
Definition quat_shape_bad (quat : ndarray) : bool :=
  negb (existsb (Nat.eqb (ndim quat)) [1; 2]%nat)
  || match shape_last quat with
     | Ok d => negb (d =? 4)%nat
     | Raise _ => true
     end.

(** The rows of an array of rank 1 (after [quat[None, :]]) or 2. *)
Definition rows_of (a : ndarray) : list (list R) :=
  match a with
  | A1 v => [v]
  | A2 _ m => m
  | _ => []
  end.

(** [row /= n] *)
Definition row_div (row : list R) (n : R) : list R := map (fun x => x / n) row.

(** [self._quat[~zero_norms] /= norms[~zero_norms][:, None]] *)
Definition normalize_rows (rows : list (list R)) (norms : list R)
           (zero_norms : list bool) : list (list R) :=
  map (fun t : list R * R * bool =>
         let '(row, n, z) := t in if negb z then row_div row n else row)
      (combine (combine rows norms) zero_norms).

(** [Rotation.__init__(self, quat, normalized=False)] *)
Definition Rotation_init (quat : ndarray) (normalized : bool) : result Rotation :=
  if quat_shape_bad quat then Raise ValueError_quat_shape
  else
    let single := nat_list_eqb (shape quat) [4%nat] in
    let quat := rows_of quat in
    if normalized then Ok (mkRotation single quat)
    else
      let norms := map norm quat in
      let zero_norms := map (fun n => Reqb n 0) norms in
      if existsb (fun b => b) zero_norms then Raise ValueError_zero_norm
      else Ok (mkRotation single (normalize_rows quat norms zero_norms)).

(** [Rotation.from_quaternion(cls, quat, normalized=False)] *)
Definition from_quaternion (quat : ndarray) (normalized : bool) : result Rotation :=
  Rotation_init quat normalized.

(** [Rotation.as_quaternion(self)] *)
Definition as_quaternion (self : Rotation) : ndarray :=
  if _single self then A1 (nth 0 (_quat self) [])
  else A2 4 (_quat self).

(** The body of [as_dcm] on one row of [self._quat]. *)
Definition as_dcm_row (q : list R) : list (list R) :=
  let x := idx q 0 in
  let y := idx q 1 in
  let z := idx q 2 in
  let w := idx q 3 in
  let x2 := x * x in
  let y2 := y * y in
  let z2 := z * z in
  let w2 := w * w in
  let xy := x * y in
  let zw := z * w in
  let xz := x * z in
  let yw := y * w in
  let yz := y * z in
  let xw := x * w in
  [ [ x2 - y2 - z2 + w2; 2 * (xy - zw); 2 * (xz + yw) ];
    [ 2 * (xy + zw); - x2 + y2 - z2 + w2; 2 * (yz - xw) ];
    [ 2 * (xz - yw); 2 * (yz + xw); - x2 - y2 + z2 + w2 ] ].

(** [Rotation.as_dcm(self)] *)
Definition as_dcm (self : Rotation) : ndarray :=
  let dcm := map as_dcm_row (_quat self) in
  if _single self then A2 3 (nth 0 dcm [])
  else A3 3 3 dcm.

(** [dcm.ndim not in [2, 3] or (dcm.shape[-2], dcm.shape[-1]) != (3, 3)] *)
Definition dcm_shape_bad (dcm : ndarray) : bool :=
  negb (existsb (Nat.eqb (ndim dcm)) [2; 3]%nat)
  || negb (nat_list_eqb (rev (firstn 2 (rev (shape dcm)))) [3; 3]%nat).

Definition mats_of (a : ndarray) : list (list (list R)) :=
  match a with
  | A2 _ m => [m]
  | A3 _ _ t => t
  | _ => []
  end.

(** [argmax] of a row: the first index that holds the maximum. *)
Fixpoint argmax_from (best : nat) (bestv : R) (i : nat) (l : list R) : nat :=
  match l with
  | [] => best
  | x :: rest =>
      if Rltb bestv x then argmax_from i x (S i) rest
      else argmax_from best bestv (S i) rest
  end.

Definition argmax (l : list R) : nat :=
  match l with
  | [] => 0%nat
  | x :: rest => argmax_from 0 x 1 rest
  end.

(** The body of [from_dcm] on one matrix of the stack, before the final
    division by the norm.  [np.empty] is read as a row of zeros: every
    entry is assigned on both paths. *)
Definition from_dcm_row (M : list (list R)) : list R :=
  let diagonal := [idx2 M 0 0; idx2 M 1 1; idx2 M 2 2] in
  let decision := diagonal ++ [Rsum diagonal] in
  let choice := argmax decision in
  let quat := [0; 0; 0; 0] in
  if negb (choice =? 3)%nat then
    let i := choice in
    let j := ((i + 1) mod 3)%nat in
    let k := ((j + 1) mod 3)%nat in
    let quat := set_idx quat i (1 - idx decision 3 + 2 * idx2 M i i) in
    let quat := set_idx quat j (idx2 M j i + idx2 M i j) in
    let quat := set_idx quat k (idx2 M k i + idx2 M i k) in
    set_idx quat 3 (idx2 M k j - idx2 M j k)
  else
    let quat := set_idx quat 0 (idx2 M 2 1 - idx2 M 1 2) in
    let quat := set_idx quat 1 (idx2 M 0 2 - idx2 M 2 0) in
    let quat := set_idx quat 2 (idx2 M 1 0 - idx2 M 0 1) in
    set_idx quat 3 (1 + idx decision 3).

(** [Rotation.from_dcm(cls, dcm)] *)
Definition from_dcm (dcm : ndarray) : result Rotation :=
  if dcm_shape_bad dcm then Raise ValueError_dcm_shape
  else
    let is_single := nat_list_eqb (shape dcm) [3; 3]%nat in
    let dcm := mats_of dcm in
    let quat := map from_dcm_row dcm in
    let quat := map (fun q => row_div q (norm q)) quat in
    if is_single then Rotation_init (A1 (nth 0 quat [])) true
    else Rotation_init (A2 4 quat) true.

(** ** Rotation vectors *)

(** [np.arctan2(y, x)] on reals: the angle of the point (x, y), in
    (-pi, pi]. *)
Definition arctan2 (y x : R) : R :=
  if Rlt_dec 0 x then atan (y / x)
  else if Rlt_dec x 0 then
    (if Rle_dec 0 y then atan (y / x) + PI else atan (y / x) - PI)
  else if Rlt_dec 0 y then PI / 2
  else if Rlt_dec y 0 then - (PI / 2)
  else 0.

(** The literal [1e-3]. *)
Definition small_angle_threshold : R := 1 / 1000.

(** [rotvec.ndim not in [1, 2] or rotvec.shape[-1] != 3] *)
Definition rotvec_shape_bad (rotvec : ndarray) : bool :=
  negb (existsb (Nat.eqb (ndim rotvec)) [1; 2]%nat)
  || match shape_last rotvec with
     | Ok d => negb (d =? 3)%nat
     | Raise _ => true
     end.

(** The entry of [scale] for one row of norm [n] in [from_rotvec]. *)
Definition from_rotvec_scale (n : R) : R :=
  let small_angle := Rleb n small_angle_threshold in
  if small_angle then 1 / 2 - n ^ 2 / 48 + n ^ 4 / 3840
  else sin (n / 2) / n.

(** The body of [from_rotvec] on one row. *)
Definition from_rotvec_row (rotvec : list R) : list R :=
  let n := norm rotvec in
  let scale := from_rotvec_scale n in
  map (fun x => scale * x) rotvec ++ [cos (n / 2)].

(** [Rotation.from_rotvec(cls, rotvec)] *)
Definition from_rotvec (rotvec : ndarray) : result Rotation :=
  if rotvec_shape_bad rotvec then Raise ValueError_rotvec_shape
  else
    let is_single := nat_list_eqb (shape rotvec) [3%nat] in
    let rotvec := rows_of rotvec in
    let quat := map from_rotvec_row rotvec in
    if is_single then Rotation_init (A1 (nth 0 quat [])) true
    else Rotation_init (A2 4 quat) true.

(** [quat[quat[:, 3] < 0] *= -1] on one row. *)
Definition flip_row (q : list R) : list R :=
  if Rltb (idx q 3) 0 then map (fun x => x * -1) q else q.

(** [2 * np.arctan2(np.linalg.norm(quat[:, :3], axis=1), quat[:, 3])] on one
    row, after the sign flip. *)
Definition as_rotvec_angle (q : list R) : R :=
  2 * arctan2 (norm (firstn 3 q)) (idx q 3).

(** The entry of [scale] for one row of angle [angle] in [as_rotvec]. *)
Definition as_rotvec_scale (angle : R) : R :=
  let small_angle := Rleb angle small_angle_threshold in
  if small_angle then 2 + angle ^ 2 / 12 + 7 * angle ^ 4 / 2880
  else angle / sin (angle / 2).

(** The body of [as_rotvec] on one row of [self._quat]. *)
Definition as_rotvec_row (q : list R) : list R :=
  let quat := flip_row q in
  let angle := as_rotvec_angle quat in
  let scale := as_rotvec_scale angle in
  map (fun x => scale * x) (firstn 3 quat).

(** [Rotation.as_rotvec(self)] *)
Definition as_rotvec (self : Rotation) : ndarray :=
  let rotvec := map as_rotvec_row (_quat self) in
  if _single self then A1 (nth 0 rotvec [])
  else A2 3 rotvec.

(** ** Euler angles *)

(** [char.lower()] on an ASCII character. *)
Definition lower (c : ascii) : ascii :=
  let n := N_of_ascii c in
  if ((65 <=? n) && (n <=? 90))%N then ascii_of_N (n + 32) else c.

(** [dcm.transpose()] of a 3 x 3 array. *)
Definition transpose3 (m : list (list R)) : list (list R) :=
  map (fun j => map (fun i => idx2 m i j) [0; 1; 2]%nat) [0; 1; 2]%nat.

(** [Rotation._make_dcm_from_angle(char, angle, intrinsic=False)].  When the
    axis is none of z, y, x no branch assigns [dcm] and the [return] raises
    [UnboundLocalError]. *)
Definition _make_dcm_from_angle (char : ascii) (angle : R) (intrinsic : bool)
  : result (list (list R)) :=
  let sinx := sin angle in
  let cosx := cos angle in
  let axis := lower char in
  dcm <- (if Ascii.eqb axis "z" then
            Ok [ [cosx; - sinx; 0]; [sinx; cosx; 0]; [0; 0; 1] ]
          else if Ascii.eqb axis "y" then
            Ok [ [cosx; 0; sinx]; [0; 1; 0]; [- sinx; 0; cosx] ]
          else if Ascii.eqb axis "x" then
            Ok [ [1; 0; 0]; [0; cosx; - sinx]; [0; sinx; cosx] ]
          else Raise UnboundLocalError_dcm) ;;
  Ok (if intrinsic then transpose3 dcm else dcm).

(** *** The regular expressions of [_make_dcm_from_euler]

    The fragment of Python's [re] the module uses: [^], a character class
    with a bounded greedy repetition, and [$].  Without [re.MULTILINE], [^]
    holds at position 0 only and [$] holds at the end of the string and also
    just before a newline that ends the string. *)
Inductive re_item : Type :=
| Re_bol
| Re_eol
| Re_class (cls : list ascii) (lo hi : nat).

Definition newline : ascii := ascii_of_nat 10.

Definition in_class (cls : list ascii) (c : ascii) : bool :=
  existsb (Ascii.eqb c) cls.

(** Consume exactly [k] characters of the class. *)
Fixpoint take_class (cls : list ascii) (k : nat) (s : list ascii)
  : option (list ascii) :=
  match k with
  | O => Some s
  | S k' =>
      match s with
      | [] => None
      | c :: rest => if in_class cls c then take_class cls k' rest else None
      end
  end.

Definition at_eol (s : list ascii) : bool :=
  match s with
  | [] => true
  | [c] => Ascii.eqb c newline
  | _ => false
  end.

(** Backtracking match of the items at position [pos], [s] being the rest of
    the subject; a repetition tries the largest count first. *)
Fixpoint match_items (pat : list re_item) (pos : nat) (s : list ascii) : bool :=
  match pat with
  | [] => true
  | Re_bol :: p => (pos =? 0)%nat && match_items p pos s
  | Re_eol :: p => at_eol s && match_items p pos s
  | Re_class cls lo hi :: p =>
      existsb (fun k => match take_class cls k s with
                        | Some rest => match_items p (pos + k) rest
                        | None => false
                        end)
              (rev (seq lo (hi + 1 - lo)))
  end.

(** [pattern.match(s) is not None] *)
Definition re_match (pat : list re_item) (s : string) : bool :=
  match_items pat 0 (list_ascii_of_string s).

(** [recompile("^[xyz]{1,3}$")] and [recompile("^[XYZ]{1,3}$")] *)
Definition extrinsic_re : list re_item :=
  [Re_bol; Re_class ["x"; "y"; "z"]%char 1 3; Re_eol].
Definition intrinsic_re : list re_item :=
  [Re_bol; Re_class ["X"; "Y"; "Z"]%char 1 3; Re_eol].

(** *** Composition of the elementary rotations *)

Definition ncols (m : list (list R)) : nat := length (nth 0 m []).

(** [np.einsum('...ij,...jk->...ik', A, B)] on two matrices. *)
Definition einsum_ij_jk_ik (A B : list (list R)) : list (list R) :=
  map (fun i =>
         map (fun k => Rsum (map (fun j => idx2 A i j * idx2 B j k)
                                 (seq 0 (ncols A))))
             (seq 0 (ncols B)))
      (seq 0 (length A)).

(** [np.einsum('...ij,...ik->...ik', A, B)] on two matrices: [j] occurs in
    the first operand only, so row [i] of [A] is summed over [j] against the
    entry [B[i, k]]. *)
Definition einsum_ij_ik_ik (A B : list (list R)) : list (list R) :=
  map (fun i =>
         map (fun k => Rsum (map (fun j => idx2 A i j * idx2 B i k)
                                 (seq 0 (ncols A))))
             (seq 0 (ncols B)))
      (seq 0 (length A)).

(** [np.eye(3)] *)
Definition eye3 : list (list R) := [ [1; 0; 0]; [0; 1; 0]; [0; 0; 1] ].

(** [enumerate(axis_str)] *)
Definition enumerate_str (s : string) : list (nat * ascii) :=
  let l := list_ascii_of_string s in combine (seq 0 (length l)) l.

(** [Rotation._make_dcm_from_euler(cls, axis_str, angle)], [angle] a 1-d
    array. *)
Definition _make_dcm_from_euler (axis_str : string) (angle : list R)
  : result (list (list R)) :=
  if negb (String.length axis_str =? length angle)%nat then
    Raise ValueError_axes_angles
  else if negb (re_match extrinsic_re axis_str)
          && negb (re_match intrinsic_re axis_str) then
    Raise ValueError_mixed_sequence
  else
    let dcm := eye3 in
    if re_match extrinsic_re axis_str then
      for_each (fun dcm (ic : nat * ascii) =>
                  let (ind, char) := ic in
                  r <- _make_dcm_from_angle char (idx angle ind) false ;;
                  Ok (einsum_ij_jk_ik r dcm))
               (enumerate_str axis_str) dcm
    else if re_match intrinsic_re axis_str then
      for_each (fun dcm (ic : nat * ascii) =>
                  let (ind, char) := ic in
                  r <- _make_dcm_from_angle char (idx angle ind) true ;;
                  Ok (einsum_ij_ik_ik dcm r))
               (enumerate_str axis_str) dcm
    else Ok dcm.

(** The first argument of [from_euler]: a [str] or an array of [str]. *)
Inductive seq_arg : Type :=
| Seq_str (s : string)
| Seq_array (l : list string).

(** [np.deg2rad] on every entry. *)
Definition deg2rad (x : R) : R := x * (PI / 180).

Definition ndarray_map (f : R -> R) (a : ndarray) : ndarray :=
  match a with
  | A0 x => A0 (f x)
  | A1 v => A1 (map f v)
  | A2 n1 m => A2 n1 (map (map f) m)
  | A3 n1 n2 t => A3 n1 n2 (map (map (map f)) t)
  end.

(** [Rotation.from_euler(cls, seq, angle_mat, deg=False)] *)
Definition from_euler (seq : seq_arg) (angle_mat : ndarray) (deg : bool)
  : result Rotation :=
  let angle_mat := if deg then ndarray_map deg2rad angle_mat else angle_mat in
  match seq with
  | Seq_str seq =>
      n0 <- shape_first angle_mat ;;
      if negb (String.length seq =? n0)%nat || negb (ndim angle_mat =? 1)%nat then
        Raise ValueError_axis_sequence
      else
        dcm <- _make_dcm_from_euler seq (nth 0 (rows_of angle_mat) []) ;;
        from_dcm (A2 3 dcm)
  | Seq_array seq =>
      n0 <- shape_first angle_mat ;;
      if negb (length seq =? n0)%nat then Raise ValueError_num_sequences
      else if negb (ndim angle_mat =? 2)%nat
              || match shape_last angle_mat with
                 | Ok d => negb (d =? 3)%nat
                 | Raise _ => true
                 end then
        Raise ValueError_three_angles
      else
        dcm_set <- map_result (fun p : string * list R =>
                                 _make_dcm_from_euler (fst p) (snd p))
                              (combine seq (rows_of angle_mat)) ;;
        from_dcm (A3 3 3 dcm_set)
  end.

(** ** Vocabulary of the statements *)

(** The elementary rotation matrices, as [_make_dcm_from_angle] builds them. *)
Definition Rx (a : R) : list (list R) :=
  [ [1; 0; 0]; [0; cos a; - sin a]; [0; sin a; cos a] ].
Definition Ry (a : R) : list (list R) :=
  [ [cos a; 0; sin a]; [0; 1; 0]; [- sin a; 0; cos a] ].
Definition Rz (a : R) : list (list R) :=
  [ [cos a; - sin a; 0]; [sin a; cos a; 0]; [0; 0; 1] ].

(** A row [x; y; z; w] of Euclidean norm 1. *)
Definition unit_quat (q : list R) : Prop :=
  length q = 4%nat /\ Rsum (map (fun x => x * x) q) = 1.

(** The determinant of a 3 x 3 matrix, by the first row. *)
Definition det3 (M : list (list R)) : R :=
  idx2 M 0 0 * (idx2 M 1 1 * idx2 M 2 2 - idx2 M 1 2 * idx2 M 2 1)
  - idx2 M 0 1 * (idx2 M 1 0 * idx2 M 2 2 - idx2 M 1 2 * idx2 M 2 0)
  + idx2 M 0 2 * (idx2 M 1 0 * idx2 M 2 1 - idx2 M 1 1 * idx2 M 2 0).

(** A sequence of one to three axis letters, all lowercase or all
    uppercase. *)
Definition axis_letters (cls : list ascii) (s : string) : Prop :=
  (1 <= String.length s <= 3)%nat
  /\ Forall (fun c => In c cls) (list_ascii_of_string s).

Definition valid_sequence (s : string) : Prop :=
  axis_letters ["x"; "y"; "z"]%char s \/ axis_letters ["X"; "Y"; "Z"]%char s.

(** The quaternion rows [from_dcm] stores for a stack of matrices. *)
Definition from_dcm_rows (Ms : list (list (list R))) : list (list R) :=
  map (fun q => row_div q (norm q)) (map from_dcm_row Ms).

(** A proper rotation matrix: orthogonal, of determinant 1. *)
Definition rotation_matrix (M : list (list R)) : Prop :=
  einsum_ij_jk_ik (transpose3 M) M = eye3 /\ det3 M = 1.

(** A 3 x 3 array given by its nine entries. *)
Definition is_3x3 (M : list (list R)) : Prop :=
  exists a b c d e f g h i, M = [ [a; b; c]; [d; e; f]; [g; h; i] ].

(** The half-angle quaternion of a rotation by [a] about the axis named by
    a lowercase letter. *)
Definition axis_quat (axis : ascii) (a : R) : list R :=
  if Ascii.eqb axis "x" then [sin (a / 2); 0; 0; cos (a / 2)]
  else if Ascii.eqb axis "y" then [0; sin (a / 2); 0; cos (a / 2)]
  else [0; 0; sin (a / 2); cos (a / 2)].

(** Row [i] of [B] scaled by the sum of row [i] of [A]. *)
Definition scale_rows (A B : list (list R)) : list (list R) :=
  map (fun p : list R * list R => map (Rmult (Rsum (fst p))) (snd p))
      (combine A B).

(** * Properties *)

(** ** Evaluation helpers *)

Lemma Rltb_true a b : a < b -> Rltb a b = true.
Proof. intros H. unfold Rltb. destruct (Rlt_dec a b); [reflexivity | contradiction]. Qed.

Lemma Rltb_false a b : ~ a < b -> Rltb a b = false.
Proof. intros H. unfold Rltb. destruct (Rlt_dec a b); [contradiction | reflexivity]. Qed.

Lemma Rleb_true a b : a <= b -> Rleb a b = true.
Proof. intros H. unfold Rleb. destruct (Rle_dec a b); [reflexivity | contradiction]. Qed.

Lemma Rleb_false a b : ~ a <= b -> Rleb a b = false.
Proof. intros H. unfold Rleb. destruct (Rle_dec a b); [contradiction | reflexivity]. Qed.

Lemma Reqb_true a b : a = b -> Reqb a b = true.
Proof. intros H. unfold Reqb. destruct (Req_dec_T a b); [reflexivity | contradiction]. Qed.

Lemma Reqb_false a b : a <> b -> Reqb a b = false.
Proof. intros H. unfold Reqb. destruct (Req_dec_T a b); [contradiction | reflexivity]. Qed.

Lemma bind_ok_inv {A B : Type} (m : result A) (k : A -> result B) (b : B) :
  bind m k = Ok b -> exists a, m = Ok a /\ k a = Ok b.
Proof. destruct m as [a | e]; simpl; intros H; [eauto | discriminate]. Qed.

Lemma make_dcm_from_angle_x a i :
  _make_dcm_from_angle "x" a i = Ok (if i then transpose3 (Rx a) else Rx a).
Proof. reflexivity. Qed.

Lemma make_dcm_from_angle_X a i :
  _make_dcm_from_angle "X" a i = Ok (if i then transpose3 (Rx a) else Rx a).
Proof. reflexivity. Qed.

Ltac eval_euler :=
  unfold _make_dcm_from_euler, _make_dcm_from_angle,
    einsum_ij_jk_ik, einsum_ij_ik_ik, transpose3, Rx, Ry, Rz, eye3; cbn.

Ltac list_eq := repeat (f_equal; try lra; try ring).

(** ** Euler composition on the angles (pi/2, 0, 0) *)

(** What the intrinsic loop computes on "XYZ": the row sums of the running
    matrix scale the rows of each transposed elementary matrix. *)
Lemma make_dcm_from_euler_XYZ_value :
  _make_dcm_from_euler "XYZ" [PI / 2; 0; 0]
  = Ok [ [1; 0; 0]; [0; 1; 0]; [0; 0; -1] ].
Proof.
  eval_euler. rewrite sin_PI2, cos_PI2, sin_0, cos_0. list_eq.
Qed.

Lemma make_dcm_from_euler_xyz_value :
  _make_dcm_from_euler "xyz" [PI / 2; 0; 0]
  = Ok [ [1; 0; 0]; [0; 0; -1]; [0; 1; 0] ].
Proof.
  eval_euler. rewrite sin_PI2, cos_PI2, sin_0, cos_0. list_eq.
Qed.

Lemma Rx_PI2_value : Rx (PI / 2) = [ [1; 0; 0]; [0; 0; -1]; [0; 1; 0] ].
Proof. unfold Rx. rewrite sin_PI2, cos_PI2. list_eq. Qed.

(** C1, as stated, fails: on "XYZ" with angles (pi/2, 0, 0) the composed
    matrix is neither the elementary x-axis rotation by pi/2 nor the matrix
    of the extrinsic sequence "xyz" with those angles. *)
Lemma C1_XYZ_differs_from_Rx :
  _make_dcm_from_euler "XYZ" [PI / 2; 0; 0] <> Ok (Rx (PI / 2))
  /\ _make_dcm_from_euler "XYZ" [PI / 2; 0; 0]
     <> _make_dcm_from_euler "xyz" [PI / 2; 0; 0].
Proof.
  rewrite make_dcm_from_euler_XYZ_value, make_dcm_from_euler_xyz_value,
    Rx_PI2_value.
  split; intros H; injection H; intros; lra.
Qed.

(** C1, amended: the extrinsic sequence "xyz" with angles (pi/2, 0, 0)
    composes to the elementary x-axis rotation matrix by pi/2; a single
    extrinsic axis "x" gives the elementary matrix of its angle and a single
    intrinsic axis "X" gives the transpose of that matrix, which is the
    x-axis rotation by the opposite angle. *)
Theorem C1_euler_single_axis :
  _make_dcm_from_euler "xyz" [PI / 2; 0; 0] = Ok (Rx (PI / 2))
  /\ _make_dcm_from_euler "xyz" [PI / 2; 0; 0]
     = _make_dcm_from_angle "x" (PI / 2) false
  /\ (forall a, _make_dcm_from_euler "x" [a] = Ok (Rx a))
  /\ (forall a, _make_dcm_from_euler "X" [a] = Ok (transpose3 (Rx a)))
  /\ (forall a, transpose3 (Rx a) = Rx (- a))
  /\ transpose3 (Rx (PI / 2)) <> Rx (PI / 2).
Proof.
  repeat split.
  - rewrite make_dcm_from_euler_xyz_value, Rx_PI2_value. reflexivity.
  - rewrite make_dcm_from_euler_xyz_value, make_dcm_from_angle_x, Rx_PI2_value.
    reflexivity.
  - intros a. eval_euler. list_eq.
  - intros a. eval_euler. list_eq.
  - intros a. unfold transpose3, Rx. cbn. rewrite sin_neg, cos_neg. list_eq.
  - rewrite Rx_PI2_value. unfold transpose3. cbn. intros H. injection H. intros. lra.
Qed.

(** ** Axis letters, the validation of a sequence and the failure branch *)

(** The [return] of [_make_dcm_from_angle] raises exactly when the
    lowercased character is none of the three axis letters. *)
Lemma make_dcm_from_angle_unbound (c : ascii) (a : R) (i : bool) :
  _make_dcm_from_angle c a i = Raise UnboundLocalError_dcm
  <-> ~ In (lower c) ["x"; "y"; "z"]%char.
Proof.
  unfold _make_dcm_from_angle.
  destruct (Ascii.eqb_spec (lower c) "z") as [Hz | Hz];
    [| destruct (Ascii.eqb_spec (lower c) "y") as [Hy | Hy];
       [| destruct (Ascii.eqb_spec (lower c) "x") as [Hx | Hx]]];
    simpl; split; intros H; try discriminate; try reflexivity;
    try (exfalso; apply H; rewrite ?Hz, ?Hy, ?Hx; simpl; tauto).
  intros [E | [E | [E | []]]]; congruence.
Qed.

Lemma make_dcm_from_angle_letter (c : ascii) (a : R) (i : bool) :
  In c ["x"; "y"; "z"; "X"; "Y"; "Z"]%char ->
  exists M, _make_dcm_from_angle c a i = Ok M /\ length M = 3%nat.
Proof.
  intros H. simpl in H.
  repeat (destruct H as [H | H]; [subst c; destruct i; eexists; split; reflexivity |]).
  contradiction.
Qed.

Lemma for_each_invariant {A S : Type} (P : S -> Prop) (Q : A -> Prop)
      (body : S -> A -> result S) (xs : list A) :
  (forall acc x, P acc -> Q x -> exists acc', body acc x = Ok acc' /\ P acc') ->
  Forall Q xs ->
  forall acc, P acc -> exists r, for_each body xs acc = Ok r /\ P r.
Proof.
  intros Hbody HQ. induction HQ as [| x rest Hx _ IH]; intros acc Hacc.
  - exists acc. split; [reflexivity | assumption].
  - simpl. destruct (Hbody acc x Hacc Hx) as [acc' [E Hacc']].
    rewrite E. simpl. apply IH. assumption.
Qed.

Lemma Forall_combine_r {A B : Type} (Q : B -> Prop) (l1 : list A) (l2 : list B) :
  Forall Q l2 -> Forall (fun p => Q (snd p)) (combine l1 l2).
Proof.
  intros H. revert l1. induction H as [| y l2 Hy _ IH]; intros [| x l1]; simpl;
    constructor; auto.
Qed.

Ltac split_letters H :=
  repeat match type of H with
         | Forall _ (_ :: _) =>
             let H1 := fresh "Hc" in
             let H2 := fresh "Hr" in
             inversion H as [| ? ? H1 H2]; subst; clear H;
             simpl in H1;
             repeat (destruct H1 as [H1 | H1]; [subst |]); try contradiction;
             try rename H2 into H
         end.

(** On all-lowercase axis letters the extrinsic pattern matches; on
    all-uppercase ones only the intrinsic pattern does. *)
Lemma re_match_lowercase (s : string) :
  axis_letters ["x"; "y"; "z"]%char s -> re_match extrinsic_re s = true.
Proof.
  intros [[Hlo Hhi] Hall].
  destruct s as [| c1 [| c2 [| c3 [| c4 s]]]]; simpl in Hlo, Hhi; try lia;
    simpl in Hall; split_letters Hall; reflexivity.
Qed.

Lemma re_match_uppercase (s : string) :
  axis_letters ["X"; "Y"; "Z"]%char s ->
  re_match extrinsic_re s = false /\ re_match intrinsic_re s = true.
Proof.
  intros [[Hlo Hhi] Hall].
  destruct s as [| c1 [| c2 [| c3 [| c4 s]]]]; simpl in Hlo, Hhi; try lia;
    simpl in Hall; split_letters Hall; split; reflexivity.
Qed.

Lemma length_einsum_ij_jk_ik (A B : list (list R)) :
  length (einsum_ij_jk_ik A B) = length A.
Proof. unfold einsum_ij_jk_ik. rewrite length_map, length_seq. reflexivity. Qed.

Lemma length_einsum_ij_ik_ik (A B : list (list R)) :
  length (einsum_ij_ik_ik A B) = length A.
Proof. unfold einsum_ij_ik_ik. rewrite length_map, length_seq. reflexivity. Qed.

Lemma Forall_In_weaken {A : Type} (cls cls' : list A) (l : list A) :
  incl cls cls' -> Forall (fun c => In c cls) l -> Forall (fun c => In c cls') l.
Proof. intros Hi H. eapply Forall_impl; [| exact H]. intros c Hc. apply Hi, Hc. Qed.

(** A sequence made of axis letters only, all lowercase or all uppercase,
    with as many angles as letters, composes without raising, into three
    rows. *)
Lemma make_dcm_from_euler_valid (s : string) (angle : list R) :
  valid_sequence s -> String.length s = length angle ->
  exists M, _make_dcm_from_euler s angle = Ok M /\ length M = 3%nat.
Proof.
  intros Hv Hlen. unfold _make_dcm_from_euler.
  rewrite Hlen, Nat.eqb_refl. simpl negb. cbv iota.
  assert (Hall : Forall (fun ic : nat * ascii =>
                           In (snd ic) ["x"; "y"; "z"; "X"; "Y"; "Z"]%char)
                        (enumerate_str s)).
  { unfold enumerate_str.
    apply (Forall_combine_r (fun c => In c ["x"; "y"; "z"; "X"; "Y"; "Z"]%char)).
    destruct Hv as [[_ H] | [_ H]];
      (eapply Forall_In_weaken; [| exact H]);
      intros c Hc; simpl in *; tauto. }
  destruct Hv as [Hv | Hv].
  - rewrite (re_match_lowercase s Hv). simpl.
    apply (for_each_invariant (fun M => length M = 3%nat)
             (fun ic => In (snd ic) ["x"; "y"; "z"; "X"; "Y"; "Z"]%char));
      [| exact Hall | reflexivity].
    intros acc [ind c] Hacc Hc.
    destruct (make_dcm_from_angle_letter c (idx angle ind) false Hc) as [M [E HM]].
    rewrite E. simpl. eexists. split; [reflexivity |].
    rewrite length_einsum_ij_jk_ik. exact HM.
  - destruct (re_match_uppercase s Hv) as [E1 E2]. rewrite E1, E2. simpl.
    apply (for_each_invariant (fun M => length M = 3%nat)
             (fun ic => In (snd ic) ["x"; "y"; "z"; "X"; "Y"; "Z"]%char));
      [| exact Hall | reflexivity].
    intros acc [ind c] Hacc Hc.
    destruct (make_dcm_from_angle_letter c (idx angle ind) true Hc) as [M [E HM]].
    rewrite E. simpl. eexists. split; [reflexivity |].
    rewrite length_einsum_ij_ik_ik. exact Hacc.
Qed.

(** C9: the validation of [_make_dcm_from_euler] does not keep every
    character an axis letter.  The pattern ends in [$], which also holds
    just before a newline that ends the string: the two-character sequence
    made of "x" and a newline passes both checks, the loop reaches
    [_make_dcm_from_angle] on the newline, and its [return] raises
    [UnboundLocalError]. *)
Theorem C9_newline_reaches_unassigned_dcm :
  let s := String "x" (String newline EmptyString) in
  re_match extrinsic_re s = true
  /\ _make_dcm_from_angle newline 0 false = Raise UnboundLocalError_dcm
  /\ _make_dcm_from_euler s [0; 0] = Raise UnboundLocalError_dcm
  /\ from_euler (Seq_str s) (A1 [0; 0]) false = Raise UnboundLocalError_dcm.
Proof. repeat split; reflexivity. Qed.

(** ** The zero rotation vector *)

Lemma norm_zero3 : norm [0; 0; 0] = 0.
Proof.
  unfold norm. simpl.
  replace (0 * 0 + (0 * 0 + (0 * 0 + 0))) with 0 by ring. apply sqrt_0.
Qed.

(** C7: [from_rotvec] on the zero vector takes the Taylor branch, with
    scale 1/2, and stores exactly the identity quaternion (0, 0, 0, 1). *)
Theorem C7_zero_rotvec_identity :
  Rleb (norm [0; 0; 0]) small_angle_threshold = true
  /\ from_rotvec_scale (norm [0; 0; 0]) = 1 / 2
  /\ from_rotvec (A1 [0; 0; 0]) = Ok (mkRotation true [ [0; 0; 0; 1] ])
  /\ (r <- from_rotvec (A1 [0; 0; 0]) ;; Ok (as_quaternion r))
     = Ok (A1 [0; 0; 0; 1]).
Proof.
  assert (Hsmall : Rleb (norm [0; 0; 0]) small_angle_threshold = true).
  { rewrite norm_zero3. apply Rleb_true. unfold small_angle_threshold. lra. }
  assert (Hscale : from_rotvec_scale (norm [0; 0; 0]) = 1 / 2).
  { unfold from_rotvec_scale. rewrite Hsmall, norm_zero3. simpl. field. }
  assert (Hrow : from_rotvec_row [0; 0; 0] = [0; 0; 0; 1]).
  { unfold from_rotvec_row. rewrite Hscale, norm_zero3. simpl.
    replace (0 / 2) with 0 by field. rewrite cos_0. list_eq. }
  assert (Hrot : from_rotvec (A1 [0; 0; 0]) = Ok (mkRotation true [ [0; 0; 0; 1] ])).
  { unfold from_rotvec. cbn -[from_rotvec_row]. rewrite Hrow. reflexivity. }
  repeat split; try assumption.
  rewrite Hrot. reflexivity.
Qed.

(** ** Construction from raw quaternions *)

Lemma existsb_zero_norms (rows : list (list R)) :
  existsb (fun b => b) (map (fun n => Reqb n 0) (map norm rows)) = true
  <-> exists row, In row rows /\ norm row = 0.
Proof.
  induction rows as [| row rest IH]; simpl.
  - split; [discriminate | intros [row [[] _]]].
  - rewrite orb_true_iff, IH. unfold Reqb at 1.
    destruct (Req_dec_T (norm row) 0) as [E | E]; split.
    + intros _. exists row. auto.
    + auto.
    + intros [H | [row' [Hin Hz]]]; [discriminate | exists row'; auto].
    + intros [row' [[Heq | Hin] Hz]]; [subst; contradiction | right; exists row'; auto].
Qed.

Lemma normalize_rows_nonzero (rows : list (list R)) :
  (forall row, In row rows -> norm row <> 0) ->
  normalize_rows rows (map norm rows) (map (fun n => Reqb n 0) (map norm rows))
  = map (fun row => row_div row (norm row)) rows.
Proof.
  unfold normalize_rows. induction rows as [| row rest IH]; intros H; simpl.
  - reflexivity.
  - rewrite (Reqb_false _ _ (H row (or_introl eq_refl))). simpl. f_equal.
    apply IH. intros row' Hin. apply H. right. exact Hin.
Qed.

(** C6: on an input of shape (4,) or (N, 4), the constructor with
    [normalized=False] raises the zero-norm error exactly when some row has
    norm zero; otherwise it stores every row divided by its own norm; and
    when a row has norm zero no [Rotation] is returned. *)
Theorem C6_zero_norm_rejected (quat : ndarray) :
  quat_shape_bad quat = false ->
  (Rotation_init quat false = Raise ValueError_zero_norm
   <-> exists row, In row (rows_of quat) /\ norm row = 0)
  /\ ((forall row, In row (rows_of quat) -> norm row <> 0) ->
      Rotation_init quat false
      = Ok (mkRotation (nat_list_eqb (shape quat) [4%nat])
                       (map (fun row => row_div row (norm row)) (rows_of quat))))
  /\ ((exists row, In row (rows_of quat) /\ norm row = 0) ->
      forall r, Rotation_init quat false <> Ok r).
Proof.
  intros Hshape. unfold Rotation_init. rewrite Hshape.
  pose proof (existsb_zero_norms (rows_of quat)) as Hz.
  destruct (existsb (fun b => b)
              (map (fun n => Reqb n 0) (map norm (rows_of quat)))) eqn:E.
  - assert (Hex : exists row, In row (rows_of quat) /\ norm row = 0)
      by (apply Hz; reflexivity).
    repeat split.
    + intros _. exact Hex.
    + intros Hnz. destruct Hex as [row [Hin Hrow]]. exfalso. exact (Hnz row Hin Hrow).
    + intros _ r. discriminate.
  - assert (Hnz : forall row, In row (rows_of quat) -> norm row <> 0).
    { intros row Hin Hrow.
      assert (false = true) by (apply Hz; exists row; auto). discriminate. }
    repeat split.
    + discriminate.
    + intros [row [Hin Hrow]]. exfalso. exact (Hnz row Hin Hrow).
    + intros _. rewrite normalize_rows_nonzero by exact Hnz. reflexivity.
    + intros [row [Hin Hrow]]. exfalso. exact (Hnz row Hin Hrow).
Qed.

Lemma norm_zero4 : norm [0; 0; 0; 0] = 0.
Proof.
  unfold norm. simpl.
  replace (0 * 0 + (0 * 0 + (0 * 0 + (0 * 0 + 0)))) with 0 by ring. apply sqrt_0.
Qed.

Lemma C6_zero_norm_rejected_witness :
  quat_shape_bad (A1 [0; 0; 0; 0]) = false
  /\ Rotation_init (A1 [0; 0; 0; 0]) false = Raise ValueError_zero_norm.
Proof.
  split; [reflexivity |].
  apply (proj1 (C6_zero_norm_rejected (A1 [0; 0; 0; 0]) eq_refl)).
  exists [0; 0; 0; 0]. split; [left; reflexivity | exact norm_zero4].
Defined.

(** ** Quaternions and direction cosine matrices *)

Lemma unit_quat_inv (q : list R) :
  unit_quat q ->
  exists x y z w, q = [x; y; z; w] /\ x * x + y * y + z * z + w * w = 1.
Proof.
  intros [Hlen Hsum].
  destruct q as [| x [| y [| z [| w [| ? ?]]]]]; try discriminate.
  exists x, y, z, w. split; [reflexivity |].
  unfold Rsum in Hsum. simpl in Hsum. lra.
Qed.

Lemma norm4 (x y z w : R) :
  norm [x; y; z; w] = sqrt (x * x + y * y + z * z + w * w).
Proof. unfold norm, Rsum. simpl. f_equal. ring. Qed.

Lemma norm3 (x y z : R) : norm [x; y; z] = sqrt (x * x + y * y + z * z).
Proof. unfold norm, Rsum. simpl. f_equal. ring. Qed.

Lemma norm4_unit (x y z w : R) :
  x * x + y * y + z * z + w * w = 1 -> norm [x; y; z; w] = 1.
Proof. intros H. rewrite norm4, H. apply sqrt_1. Qed.

(** A unit quaternion given as a (4,) input is stored as it is, whatever the
    flag [normalized]. *)
Lemma from_quaternion_unit (x y z w : R) (normalized : bool) :
  x * x + y * y + z * z + w * w = 1 ->
  from_quaternion (A1 [x; y; z; w]) normalized
  = Ok (mkRotation true [ [x; y; z; w] ]).
Proof.
  intros H. unfold from_quaternion, Rotation_init.
  destruct normalized; [reflexivity |].
  cbn -[norm]. rewrite (norm4_unit x y z w H).
  rewrite (Reqb_false 1 0) by lra. cbn. list_eq; field.
Qed.

(** On the matrix of a unit quaternion, the extraction of [from_dcm] gives,
    before the division by the norm, the quaternion scaled by four times its
    component of largest magnitude, which is not zero. *)
Lemma from_dcm_row_as_dcm_row (x y z w : R) :
  x * x + y * y + z * z + w * w = 1 ->
  exists c, c <> 0
    /\ from_dcm_row (as_dcm_row [x; y; z; w])
       = [4 * c * x; 4 * c * y; 4 * c * z; 4 * c * w].
Proof.
  intros H. unfold from_dcm_row, as_dcm_row, argmax. cbn -[Rltb].
  unfold Rltb.
  repeat match goal with
         | |- context [Rlt_dec ?a ?b] => destruct (Rlt_dec a b)
         end; cbn.
  all: first
    [ exists x; split; [nra | list_eq; nra]
    | exists y; split; [nra | list_eq; nra]
    | exists z; split; [nra | list_eq; nra]
    | exists w; split; [nra | list_eq; nra] ].
Qed.

Lemma norm4_scaled (c x y z w : R) :
  x * x + y * y + z * z + w * w = 1 ->
  norm [4 * c * x; 4 * c * y; 4 * c * z; 4 * c * w] = 4 * Rabs c.
Proof.
  intros H. rewrite norm4.
  replace (4 * c * x * (4 * c * x) + 4 * c * y * (4 * c * y)
           + 4 * c * z * (4 * c * z) + 4 * c * w * (4 * c * w))
    with (Rsqr (4 * c) * (x * x + y * y + z * z + w * w))
    by (unfold Rsqr; ring).
  rewrite H, Rmult_1_r, sqrt_Rsqr_abs, Rabs_mult.
  rewrite (Rabs_pos_eq 4) by lra. reflexivity.
Qed.

Lemma row_div_scaled (c x y z w : R) :
  x * x + y * y + z * z + w * w = 1 -> c <> 0 ->
  let q := [4 * c * x; 4 * c * y; 4 * c * z; 4 * c * w] in
  row_div q (norm q) = [x; y; z; w] \/ row_div q (norm q) = [- x; - y; - z; - w].
Proof.
  intros H Hc q. unfold q. rewrite (norm4_scaled c x y z w H).
  unfold row_div. simpl.
  destruct (Rle_dec 0 c) as [Hpos | Hneg].
  - left. rewrite (Rabs_pos_eq c Hpos). list_eq; field; assumption.
  - right. rewrite (Rabs_left c) by lra. list_eq; field; assumption.
Qed.

(** C2: a unit quaternion q given as a (4,) input, turned into a matrix by
    [as_dcm] and back into a quaternion by [from_dcm], comes back as q or
    as -q. *)
Theorem C2_quat_dcm_roundtrip (x y z w : R) :
  x * x + y * y + z * z + w * w = 1 ->
  exists q',
    (r <- from_quaternion (A1 [x; y; z; w]) false ;;
     r' <- from_dcm (as_dcm r) ;;
     Ok (as_quaternion r')) = Ok (A1 q')
    /\ (q' = [x; y; z; w] \/ q' = [- x; - y; - z; - w]).
Proof.
  intros H. rewrite (from_quaternion_unit x y z w false H).
  destruct (from_dcm_row_as_dcm_row x y z w H) as [c [Hc Hrow]].
  unfold bind at 1.
  unfold as_dcm. cbn [_single _quat map nth].
  unfold from_dcm. cbn -[from_dcm_row as_dcm_row norm row_div].
  rewrite Hrow.
  eexists. split; [reflexivity |].
  exact (row_div_scaled c x y z w H Hc).
Qed.

Lemma C2_quat_dcm_roundtrip_witness :
  0 * 0 + 0 * 0 + 0 * 0 + 1 * 1 = 1
  /\ exists q',
       (r <- from_quaternion (A1 [0; 0; 0; 1]) false ;;
        r' <- from_dcm (as_dcm r) ;;
        Ok (as_quaternion r')) = Ok (A1 q')
       /\ (q' = [0; 0; 0; 1] \/ q' = [- 0; - 0; - 0; - 1]).
Proof.
  assert (H : 0 * 0 + 0 * 0 + 0 * 0 + 1 * 1 = 1) by lra.
  split; [exact H | exact (C2_quat_dcm_roundtrip 0 0 0 1 H)].
Defined.

(** The matrix of a unit quaternion is orthogonal, of determinant 1. *)
Lemma as_dcm_row_orthogonal (x y z w : R) :
  x * x + y * y + z * z + w * w = 1 ->
  let M := as_dcm_row [x; y; z; w] in
  einsum_ij_jk_ik (transpose3 M) M = eye3 /\ det3 M = 1.
Proof.
  intros H M. unfold M, as_dcm_row, einsum_ij_jk_ik, transpose3, det3, eye3.
  cbn.
  assert (H2 : 1 = (x * x + y * y + z * z + w * w) ^ 2) by (rewrite H; ring).
  assert (H3 : 1 = (x * x + y * y + z * z + w * w) ^ 3) by (rewrite H; ring).
  split.
  - repeat f_equal; first [ring | (rewrite H2 at 1; ring)].
  - rewrite H3 at 1. ring.
Qed.

(** C5: for a unit quaternion, the matrix M returned by [as_dcm] satisfies
    M^T M = I and det M = 1. *)
Theorem C5_as_dcm_orthogonal (x y z w : R) (normalized : bool) :
  x * x + y * y + z * z + w * w = 1 ->
  exists M,
    (r <- from_quaternion (A1 [x; y; z; w]) normalized ;; Ok (as_dcm r))
    = Ok (A2 3 M)
    /\ einsum_ij_jk_ik (transpose3 M) M = eye3
    /\ det3 M = 1.
Proof.
  intros H. rewrite (from_quaternion_unit x y z w normalized H).
  exists (as_dcm_row [x; y; z; w]). split; [reflexivity |].
  exact (as_dcm_row_orthogonal x y z w H).
Qed.

Lemma C5_as_dcm_orthogonal_witness :
  0 * 0 + 0 * 0 + 0 * 0 + 1 * 1 = 1
  /\ exists M,
       (r <- from_quaternion (A1 [0; 0; 0; 1]) false ;; Ok (as_dcm r))
       = Ok (A2 3 M)
       /\ einsum_ij_jk_ik (transpose3 M) M = eye3
       /\ det3 M = 1.
Proof.
  assert (H : 0 * 0 + 0 * 0 + 0 * 0 + 1 * 1 = 1) by lra.
  split; [exact H | exact (C5_as_dcm_orthogonal 0 0 0 1 false H)].
Defined.

(** The same on every matrix of the stack of a batch. *)
Lemma as_dcm_batch_orthogonal (self : Rotation) :
  _single self = false -> Forall unit_quat (_quat self) ->
  exists Ms, as_dcm self = A3 3 3 Ms
    /\ length Ms = length (_quat self)
    /\ Forall (fun M => einsum_ij_jk_ik (transpose3 M) M = eye3 /\ det3 M = 1) Ms.
Proof.
  intros Hs Hu. unfold as_dcm. rewrite Hs.
  exists (map as_dcm_row (_quat self)). split; [reflexivity |].
  split; [apply length_map |].
  apply Forall_map. eapply Forall_impl; [| exact Hu].
  intros q Hq. destruct (unit_quat_inv q Hq) as [x [y [z [w [-> H]]]]].
  exact (as_dcm_row_orthogonal x y z w H).
Qed.

(** ** Trigonometric facts behind the rotation vector codec *)

Lemma PI_bounds : 3 < PI <= 4.
Proof. pose proof PI2_3_2. pose proof PI_4. lra. Qed.

(** [arctan2] inverts (sin, cos) on the first quadrant. *)
Lemma arctan2_sin_cos (a : R) :
  0 <= a <= PI / 2 -> arctan2 (sin a) (cos a) = a.
Proof.
  intros [Ha0 Ha1]. unfold arctan2.
  destruct (Rlt_dec 0 (cos a)) as [Hc | Hc].
  - destruct (Req_dec a (PI / 2)) as [E | E].
    + rewrite E, cos_PI2 in Hc. lra.
    + change (sin a / cos a) with (tan a). apply atan_tan. lra.
  - assert (Hc0 : cos a = 0).
    { pose proof (cos_ge_0 a) as H. lra. }
    destruct (Rlt_dec (cos a) 0) as [Hn | _]; [lra |].
    assert (Ea : a = PI / 2).
    { destruct (Req_dec a (PI / 2)) as [E | E]; [exact E |].
      pose proof (cos_gt_0 a). lra. }
    rewrite Ea, sin_PI2.
    destruct (Rlt_dec 0 1); [reflexivity | lra].
Qed.

(** For a point (w, s) of the unit circle in the closed first quadrant,
    [arctan2 s w] is the angle in [0, pi/2] whose sine is s and cosine w. *)
Lemma arctan2_unit_circle (s w : R) :
  0 <= s -> 0 <= w -> s * s + w * w = 1 ->
  0 <= arctan2 s w <= PI / 2
  /\ sin (arctan2 s w) = s /\ cos (arctan2 s w) = w.
Proof.
  intros Hs Hw H. unfold arctan2.
  destruct (Rlt_dec 0 w) as [Hpos | Hnpos].
  - assert (Hsq : sqrt (1 + (s / w)²) = / w).
    { apply sqrt_lem_1.
      - unfold Rsqr. nra.
      - left. apply Rinv_0_lt_compat. exact Hpos.
      - unfold Rsqr. field_simplify; [| lra | lra].
        replace (w ^ 2 + s ^ 2) with 1 by nra. reflexivity. }
    rewrite sin_atan, cos_atan, Hsq.
    assert (Hat : 0 <= atan (s / w)).
    { destruct (Req_dec s 0) as [E | E].
      - rewrite E. unfold Rdiv. rewrite Rmult_0_l, atan_0. lra.
      - left. rewrite <- atan_0. apply atan_increasing.
        apply Rdiv_lt_0_compat; lra. }
    pose proof (atan_bound (s / w)) as Hb.
    repeat split; try lra; field; lra.
  - assert (Hw0 : w = 0) by lra. subst w.
    assert (Hs1 : s = 1) by nra. subst s.
    destruct (Rlt_dec 0 0) as [Habs | _]; [lra |].
    destruct (Rlt_dec 0 1) as [_ | Habs]; [| lra].
    pose proof PI_bounds. rewrite sin_PI2, cos_PI2. repeat split; lra.
Qed.

(** The norm of a scaled triple. *)
Lemma norm3_scaled (k x y z : R) :
  norm (map (fun v => k * v) [x; y; z]) = Rabs k * norm [x; y; z].
Proof.
  simpl. rewrite !norm3.
  replace (k * x * (k * x) + k * y * (k * y) + k * z * (k * z))
    with (Rsqr k * (x * x + y * y + z * z)) by (unfold Rsqr; ring).
  rewrite sqrt_mult_alt by apply Rle_0_sqr.
  rewrite sqrt_Rsqr_abs. reflexivity.
Qed.

Lemma norm_nonneg (v : list R) : 0 <= norm v.
Proof. apply sqrt_pos. Qed.

Lemma norm3_sq (x y z : R) : norm [x; y; z] * norm [x; y; z] = x * x + y * y + z * z.
Proof. rewrite norm3. apply sqrt_sqrt. nra. Qed.

(** The truncated series of [as_rotvec] stays strictly below
    [angle / sin (angle / 2)] on small positive angles. *)
Lemma taylor_scale_below (angle : R) :
  0 < angle <= 1 ->
  (2 + angle ^ 2 / 12 + 7 * angle ^ 4 / 2880) * sin (angle / 2) < angle.
Proof.
  intros [H0 H1].
  set (a := angle / 2).
  assert (Ha : 0 < a <= 1 / 2) by (unfold a; lra).
  destruct (pre_sin_bound a 0) as [_ Hub]; [lra | lra |].
  unfold sin_approx, sin_term in Hub. simpl in Hub.
  assert (Hub' : sin a <= a - a ^ 3 / 6 + a ^ 5 / 120) by (simpl; lra).
  assert (HT : 0 < 2 + angle ^ 2 / 12 + 7 * angle ^ 4 / 2880).
  { assert (0 <= angle ^ 2) by (apply pow2_ge_0).
    assert (0 <= angle ^ 4) by (replace (angle ^ 4) with ((angle ^ 2) ^ 2) by ring;
                                apply pow2_ge_0).
    lra. }
  apply Rle_lt_trans
    with ((2 + angle ^ 2 / 12 + 7 * angle ^ 4 / 2880) * (a - a ^ 3 / 6 + a ^ 5 / 120)).
  { apply Rmult_le_compat_l; lra. }
  replace angle with (2 * a) by (unfold a; field).
  assert (Hd : 2 * a
               - (2 + (2 * a) ^ 2 / 12 + 7 * (2 * a) ^ 4 / 2880)
                 * (a - a ^ 3 / 6 + a ^ 5 / 120)
               = a ^ 7 * (1 / 270 - 7 * (a * a) / 21600)) by field.
  assert (Hp : 0 < a ^ 7) by (apply pow_lt; lra).
  assert (Hq : 0 < 1 / 270 - 7 * (a * a) / 21600) by nra.
  assert (0 < a ^ 7 * (1 / 270 - 7 * (a * a) / 21600))
    by (apply Rmult_lt_0_compat; assumption).
  lra.
Qed.

(** ** Rotation vectors: round trip *)

Lemma from_rotvec_single (a b c : R) :
  from_rotvec (A1 [a; b; c])
  = Ok (mkRotation true [from_rotvec_row [a; b; c]]).
Proof. reflexivity. Qed.

Lemma from_rotvec_row_shape (a b c : R) :
  from_rotvec_row [a; b; c]
  = [from_rotvec_scale (norm [a; b; c]) * a;
     from_rotvec_scale (norm [a; b; c]) * b;
     from_rotvec_scale (norm [a; b; c]) * c;
     cos (norm [a; b; c] / 2)].
Proof. reflexivity. Qed.

(** For a rotation vector of norm at most pi the scalar part stored by
    [from_rotvec] is not negative, so the sign flip of [as_rotvec] leaves
    the row as it is. *)
Lemma flip_row_from_rotvec (a b c : R) :
  norm [a; b; c] <= PI ->
  flip_row (from_rotvec_row [a; b; c]) = from_rotvec_row [a; b; c].
Proof.
  intros Hn. rewrite from_rotvec_row_shape. unfold flip_row. cbn [idx nth].
  rewrite Rltb_false; [reflexivity |].
  pose proof (norm_nonneg [a; b; c]) as H0.
  pose proof (cos_ge_0 (norm [a; b; c] / 2)) as Hc. lra.
Qed.

(** C4: for a rotation vector v of norm at most pi the sign flip of
    [as_rotvec] changes nothing on the quaternion of v, and outside the
    Taylor branches (norm above 1e-3) [as_rotvec (from_rotvec v)] is v. *)
Theorem C4_rotvec_roundtrip (a b c : R) :
  norm [a; b; c] <= PI ->
  exists r,
    from_rotvec (A1 [a; b; c]) = Ok r
    /\ map flip_row (_quat r) = _quat r
    /\ (small_angle_threshold < norm [a; b; c] ->
        as_rotvec r = A1 [a; b; c]).
Proof.
  intros Hn. rewrite from_rotvec_single. eexists. split; [reflexivity |].
  cbn [_quat _single map].
  split.
  - rewrite (flip_row_from_rotvec a b c Hn). reflexivity.
  - intros Hbig. unfold as_rotvec. cbn [_quat _single map nth].
    unfold as_rotvec_row. rewrite (flip_row_from_rotvec a b c Hn).
    rewrite from_rotvec_row_shape.
    set (n := norm [a; b; c]) in *.
    assert (Hthr : 0 < small_angle_threshold)
      by (unfold small_angle_threshold; lra).
    assert (Hk : from_rotvec_scale n = sin (n / 2) / n).
    { unfold from_rotvec_scale. rewrite Rleb_false by lra. reflexivity. }
    assert (Hsin : 0 < sin (n / 2)).
    { apply sin_gt_0; pose proof PI_bounds; lra. }
    assert (Hkpos : 0 < from_rotvec_scale n).
    { rewrite Hk. apply Rdiv_lt_0_compat; lra. }
    assert (Hangle : as_rotvec_angle
                       [from_rotvec_scale n * a; from_rotvec_scale n * b;
                        from_rotvec_scale n * c; cos (n / 2)] = n).
    { unfold as_rotvec_angle. cbn [firstn idx nth].
      change [from_rotvec_scale n * a; from_rotvec_scale n * b;
              from_rotvec_scale n * c]
        with (map (fun v => from_rotvec_scale n * v) [a; b; c]).
      rewrite norm3_scaled. fold n.
      rewrite (Rabs_pos_eq _ (Rlt_le _ _ Hkpos)), Hk.
      replace (sin (n / 2) / n * n) with (sin (n / 2)) by (field; lra).
      rewrite arctan2_sin_cos by (pose proof PI_bounds; lra). field. }
    rewrite Hangle. cbn [firstn map].
    unfold as_rotvec_scale. rewrite Rleb_false by lra. rewrite Hk.
    f_equal. list_eq; field; lra.
Qed.

Lemma C4_rotvec_roundtrip_witness :
  norm [1; 0; 0] <= PI
  /\ exists r,
       from_rotvec (A1 [1; 0; 0]) = Ok r
       /\ map flip_row (_quat r) = _quat r
       /\ (small_angle_threshold < norm [1; 0; 0] ->
           as_rotvec r = A1 [1; 0; 0]).
Proof.
  assert (H : norm [1; 0; 0] <= PI).
  { rewrite norm3. replace (1 * 1 + 0 * 0 + 0 * 0) with 1 by ring.
    rewrite sqrt_1. pose proof PI_bounds. lra. }
  split; [exact H | exact (C4_rotvec_roundtrip 1 0 0 H)].
Defined.

(** ** Rotation vectors: the norm of the output *)

(** The sign flip keeps a unit row a unit row and makes its scalar part
    non-negative. *)
Lemma flip_row_unit (x y z w : R) :
  x * x + y * y + z * z + w * w = 1 ->
  exists x' y' z' w',
    flip_row [x; y; z; w] = [x'; y'; z'; w']
    /\ 0 <= w' /\ x' * x' + y' * y' + z' * z' + w' * w' = 1.
Proof.
  intros H. unfold flip_row, Rltb. cbn [idx nth].
  destruct (Rlt_dec w 0) as [Hneg | Hpos].
  - exists (x * -1), (y * -1), (z * -1), (w * -1).
    split; [reflexivity |]. split; nra.
  - exists x, y, z, w. split; [reflexivity |]. split; lra.
Qed.

(** The row of [as_rotvec] for a unit row with non-negative scalar part:
    the angle lies in [0, pi]; in the exact branch the norm of the output
    is the angle, in the Taylor branch it is the truncated series times
    sin (angle / 2), which does not exceed the angle. *)
Lemma as_rotvec_unit_nonneg (x y z w : R) :
  0 <= w -> x * x + y * y + z * z + w * w = 1 ->
  let q := [x; y; z; w] in
  let angle := as_rotvec_angle q in
  let out := map (fun v => as_rotvec_scale angle * v) (firstn 3 q) in
  0 <= angle <= PI
  /\ norm out <= PI
  /\ (small_angle_threshold < angle -> norm out = angle)
  /\ (angle <= small_angle_threshold ->
      norm out = (2 + angle ^ 2 / 12 + 7 * angle ^ 4 / 2880) * sin (angle / 2)
      /\ norm out <= angle).
Proof.
  intros Hw H q angle out.
  set (s := norm [x; y; z]).
  assert (Hs : 0 <= s) by apply norm_nonneg.
  assert (Hss : s * s + w * w = 1).
  { unfold s. rewrite norm3_sq. lra. }
  destruct (arctan2_unit_circle s w Hs Hw Hss) as [[Ha0 Ha1] [Hsin Hcos]].
  assert (Hangle : angle = 2 * arctan2 s w) by reflexivity.
  assert (Hhalf : angle / 2 = arctan2 s w) by (rewrite Hangle; field).
  assert (Hnorm : norm out = Rabs (as_rotvec_scale angle) * s).
  { unfold out, q. cbn [firstn]. apply norm3_scaled. }
  assert (Hthr : small_angle_threshold = 1 / 1000) by reflexivity.
  assert (Hrange : 0 <= angle <= PI) by lra.
  assert (Hexact : small_angle_threshold < angle -> norm out = angle).
  { intros Hbig. rewrite Hnorm. unfold as_rotvec_scale.
    rewrite Rleb_false by lra. rewrite Hhalf, Hsin.
    assert (Hspos : 0 < s).
    { rewrite <- Hsin. apply sin_gt_0; pose proof PI_bounds; lra. }
    rewrite Rabs_pos_eq; [field; lra |].
    apply Rlt_le, Rdiv_lt_0_compat; lra. }
  assert (Htaylor : angle <= small_angle_threshold ->
                    norm out
                    = (2 + angle ^ 2 / 12 + 7 * angle ^ 4 / 2880) * sin (angle / 2)
                    /\ norm out <= angle).
  { intros Hsmall. rewrite Hnorm. unfold as_rotvec_scale.
    rewrite Rleb_true by exact Hsmall.
    assert (HT : 0 < 2 + angle ^ 2 / 12 + 7 * angle ^ 4 / 2880).
    { assert (0 <= angle ^ 2) by (apply pow2_ge_0).
      assert (0 <= angle ^ 4)
        by (replace (angle ^ 4) with ((angle ^ 2) ^ 2) by ring; apply pow2_ge_0).
      lra. }
    rewrite (Rabs_pos_eq _ (Rlt_le _ _ HT)).
    rewrite Hhalf at 1. rewrite Hsin. split; [reflexivity |].
    destruct (Req_dec angle 0) as [E0 | E0].
    - assert (Hs0 : s = 0).
      { rewrite <- Hsin, <- Hhalf, E0. replace (0 / 2) with 0 by field.
        apply sin_0. }
      rewrite Hs0, E0. lra.
    - pose proof (taylor_scale_below angle) as Hlt.
      rewrite Hhalf, Hsin in Hlt. lra. }
  assert (Hpi : norm out <= PI).
  { destruct (Rle_dec angle small_angle_threshold) as [Hsmall | Hbig].
    - destruct (Htaylor Hsmall) as [_ Hle]. lra.
    - rewrite Hexact by lra. lra. }
  repeat split; try lra; try assumption; apply Htaylor; assumption.
Qed.

(** The same for any unit row, through the sign flip. *)
Lemma as_rotvec_row_unit (q : list R) :
  unit_quat q ->
  let angle := as_rotvec_angle (flip_row q) in
  0 <= idx (flip_row q) 3
  /\ 0 <= angle <= PI
  /\ norm (as_rotvec_row q) <= PI
  /\ (small_angle_threshold < angle -> norm (as_rotvec_row q) = angle)
  /\ (angle <= small_angle_threshold ->
      norm (as_rotvec_row q)
      = (2 + angle ^ 2 / 12 + 7 * angle ^ 4 / 2880) * sin (angle / 2)
      /\ norm (as_rotvec_row q) <= angle).
Proof.
  intros Hq. destruct (unit_quat_inv q Hq) as [x [y [z [w [-> H]]]]].
  destruct (flip_row_unit x y z w H) as [x' [y' [z' [w' [Hflip [Hw' H']]]]]].
  unfold as_rotvec_row. rewrite Hflip. cbn [idx nth].
  split; [exact Hw' |].
  exact (as_rotvec_unit_nonneg x' y' z' w' Hw' H').
Qed.

Lemma norm_nil : norm [] = 0.
Proof. unfold norm, Rsum. simpl. apply sqrt_0. Qed.

(** C8, as stated, fails in the Taylor branch: on the unit quaternion
    (sin (1/2000), 0, 0, cos (1/2000)) the angle is 1/1000, the scale is the
    truncated series, and the norm of the output row is strictly below the
    angle. *)
Lemma C8_norm_below_angle_in_taylor_branch :
  let q := [sin (1 / 2000); 0; 0; cos (1 / 2000)] in
  unit_quat q
  /\ as_rotvec (mkRotation true [q]) = A1 (as_rotvec_row q)
  /\ as_rotvec_angle (flip_row q) = 1 / 1000
  /\ norm (as_rotvec_row q) < as_rotvec_angle (flip_row q)
  /\ norm (as_rotvec_row q) <> as_rotvec_angle (flip_row q).
Proof.
  intros q.
  assert (Hu : unit_quat q).
  { split; [reflexivity |]. unfold q, Rsum. simpl.
    pose proof (sin2_cos2 (1 / 2000)) as H. unfold Rsqr in H. lra. }
  assert (Hcos : 0 < cos (1 / 2000)).
  { apply cos_gt_0; pose proof PI_bounds; lra. }
  assert (Hsin : 0 < sin (1 / 2000)).
  { apply sin_gt_0; pose proof PI_bounds; lra. }
  assert (Hflip : flip_row q = q).
  { unfold flip_row, q. cbn [idx nth]. rewrite Rltb_false by lra. reflexivity. }
  assert (Hangle : as_rotvec_angle (flip_row q) = 1 / 1000).
  { rewrite Hflip. unfold as_rotvec_angle, q. cbn [firstn idx nth].
    rewrite norm3.
    replace (sin (1 / 2000) * sin (1 / 2000) + 0 * 0 + 0 * 0)
      with (sin (1 / 2000) * sin (1 / 2000)) by ring.
    rewrite sqrt_square by lra.
    rewrite arctan2_sin_cos by (pose proof PI_bounds; lra). field. }
  assert (Hlt : norm (as_rotvec_row q) < as_rotvec_angle (flip_row q)).
  { destruct (as_rotvec_row_unit q Hu) as [_ [_ [_ [_ Ht]]]].
    rewrite Hangle in *.
    destruct Ht as [Hval _]; [unfold small_angle_threshold; lra |].
    rewrite Hval. apply taylor_scale_below. lra. }
  split; [exact Hu |]. split; [reflexivity |]. split; [exact Hangle |].
  split; [exact Hlt |]. intros E. rewrite E in Hlt. exact (Rlt_irrefl _ Hlt).
Qed.

(** C8, amended: for a rotation whose stored rows are unit quaternions,
    every row of the output of [as_rotvec] has norm at most pi.  The sign
    flip makes the scalar part non-negative, the angle
    2 * arctan2 (norm of the vector part, w) lies in [0, pi]; the norm of
    the output row equals that angle when the angle exceeds 1e-3, and in the
    Taylor branch it is the truncated series times sin (angle / 2), at most
    the angle. *)
Theorem C8_as_rotvec_norm_bound (self : Rotation) :
  Forall unit_quat (_quat self) ->
  Forall (fun row => norm row <= PI) (rows_of (as_rotvec self))
  /\ Forall (fun q =>
               let angle := as_rotvec_angle (flip_row q) in
               0 <= idx (flip_row q) 3
               /\ 0 <= angle <= PI
               /\ norm (as_rotvec_row q) <= PI
               /\ (small_angle_threshold < angle ->
                   norm (as_rotvec_row q) = angle)
               /\ (angle <= small_angle_threshold ->
                   norm (as_rotvec_row q)
                   = (2 + angle ^ 2 / 12 + 7 * angle ^ 4 / 2880)
                     * sin (angle / 2)
                   /\ norm (as_rotvec_row q) <= angle))
            (_quat self).
Proof.
  intros Hu.
  assert (Hrows : Forall (fun row => norm row <= PI)
                         (map as_rotvec_row (_quat self))).
  { apply Forall_map. eapply Forall_impl; [| exact Hu].
    intros q Hq. apply (as_rotvec_row_unit q Hq). }
  split.
  - unfold as_rotvec. destruct (_single self); cbn [rows_of]; [| exact Hrows].
    constructor; [| constructor].
    destruct (map as_rotvec_row (_quat self)) as [| row rest]; cbn [nth].
    + rewrite norm_nil. pose proof PI_bounds. lra.
    + inversion Hrows; assumption.
  - eapply Forall_impl; [| exact Hu].
    intros q Hq. exact (as_rotvec_row_unit q Hq).
Qed.

Lemma C8_as_rotvec_norm_bound_witness :
  Forall unit_quat (_quat (mkRotation true [ [0; 0; 0; 1] ]))
  /\ Forall (fun row => norm row <= PI)
            (rows_of (as_rotvec (mkRotation true [ [0; 0; 0; 1] ]))).
Proof.
  assert (H : Forall unit_quat (_quat (mkRotation true [ [0; 0; 0; 1] ]))).
  { constructor; [| constructor]. split; [reflexivity |].
    unfold Rsum. simpl. lra. }
  split; [exact H |].
  exact (proj1 (C8_as_rotvec_norm_bound (mkRotation true [ [0; 0; 0; 1] ]) H)).
Defined.

(** ** [from_euler]: the shapes it accepts *)

Lemma from_euler_deg (seq : seq_arg) (angle_mat : ndarray) :
  from_euler seq angle_mat true
  = from_euler seq (ndarray_map deg2rad angle_mat) false.
Proof. reflexivity. Qed.

Lemma wf_ndarray_map (f : R -> R) (a : ndarray) :
  wf_ndarray a -> wf_ndarray (ndarray_map f a).
Proof.
  destruct a as [x | v | n1 m | n1 n2 t]; simpl; auto.
  - intros H. apply Forall_map. eapply Forall_impl; [| exact H].
    intros r Hr. simpl. rewrite length_map. exact Hr.
  - intros H. apply Forall_map. eapply Forall_impl; [| exact H].
    intros m [Hm Hrows]. simpl. rewrite length_map. split; [exact Hm |].
    apply Forall_map. eapply Forall_impl; [| exact Hrows].
    intros r Hr. simpl. rewrite length_map. exact Hr.
Qed.

Lemma shape_ndarray_map (f : R -> R) (a : ndarray) :
  shape (ndarray_map f a) = shape a.
Proof.
  destruct a as [x | v | n1 m | n1 n2 t]; simpl; rewrite ?length_map; reflexivity.
Qed.

Lemma length_set_idx (v : list R) (i : nat) (x : R) :
  length (set_idx v i x) = length v.
Proof.
  revert i. induction v as [| y rest IH]; intros [| i]; simpl; auto.
Qed.

Lemma length_from_dcm_row (M : list (list R)) : length (from_dcm_row M) = 4%nat.
Proof.
  unfold from_dcm_row.
  destruct (negb (argmax _ =? 3)%nat); rewrite !length_set_idx; reflexivity.
Qed.

Lemma nat_list_eqb_refl (l : list nat) : nat_list_eqb l l = true.
Proof. unfold nat_list_eqb. destruct (list_eq_dec Nat.eq_dec l l); congruence. Qed.

Lemma nat_list_eqb_length (l1 l2 : list nat) :
  length l1 <> length l2 -> nat_list_eqb l1 l2 = false.
Proof.
  intros H. unfold nat_list_eqb.
  destruct (list_eq_dec Nat.eq_dec l1 l2) as [E | E]; [| reflexivity].
  subst. contradiction.
Qed.

Lemma from_dcm_single_ok (M : list (list R)) :
  length M = 3%nat ->
  from_dcm (A2 3 M) = Ok (mkRotation true (from_dcm_rows [M])).
Proof.
  intros HM. unfold from_dcm, dcm_shape_bad. cbn [ndim shape rev firstn app existsb].
  rewrite HM. cbn -[from_dcm_row norm row_div].
  unfold Rotation_init, quat_shape_bad, shape_last.
  cbn [ndim shape rev app existsb Nat.eqb orb negb].
  unfold row_div at 1 2. rewrite !length_map, length_from_dcm_row.
  reflexivity.
Qed.

Lemma from_dcm_batch_ok (Ms : list (list (list R))) :
  from_dcm (A3 3 3 Ms) = Ok (mkRotation false (from_dcm_rows Ms)).
Proof.
  unfold from_dcm, dcm_shape_bad. cbn [ndim shape rev firstn app existsb].
  cbn -[from_dcm_row norm row_div nat_list_eqb].
  rewrite (nat_list_eqb_length [length Ms; 3; 3]%nat [3; 3]%nat) by (simpl; lia).
  unfold Rotation_init, quat_shape_bad, shape_last.
  cbn [ndim shape rev app existsb Nat.eqb orb negb rows_of].
  rewrite nat_list_eqb_refl. cbn [negb].
  rewrite nat_list_eqb_length by (simpl; lia). reflexivity.
Qed.

Lemma map_result_Forall2 {A B : Type} (f : A -> result B) (xs : list A) (ys : list B) :
  map_result f xs = Ok ys -> Forall2 (fun x y => f x = Ok y) xs ys.
Proof.
  revert ys. induction xs as [| x rest IH]; simpl; intros ys H.
  - injection H as <-. constructor.
  - destruct (f x) as [y | e] eqn:Ex; simpl in H; [| discriminate].
    destruct (map_result f rest) as [ys' | e] eqn:Er; simpl in H; [| discriminate].
    injection H as <-. constructor; [exact Ex | apply IH; reflexivity].
Qed.

Lemma map_result_all_ok {A B : Type} (f : A -> result B) (xs : list A) :
  Forall (fun x => exists y, f x = Ok y) xs ->
  exists ys, map_result f xs = Ok ys.
Proof.
  induction 1 as [| x rest [y Ey] _ [ys Eys]]; simpl.
  - eexists. reflexivity.
  - rewrite Ey, Eys. simpl. eexists. reflexivity.
Qed.

Lemma make_dcm_from_euler_ok_length (s : string) (angle : list R)
      (M : list (list R)) :
  _make_dcm_from_euler s angle = Ok M -> String.length s = length angle.
Proof.
  unfold _make_dcm_from_euler.
  destruct (String.length s =? length angle)%nat eqn:E; simpl.
  - intros _. apply Nat.eqb_eq. exact E.
  - discriminate.
Qed.

(** When the loop over the per-rotation sequences raises nothing, every
    sequence has as many letters as its angle row has angles. *)
Lemma euler_rows_ok_lengths (seqs : list string) (rows : list (list R))
      (dcms : list (list (list R))) :
  length seqs = length rows ->
  map_result (fun p : string * list R => _make_dcm_from_euler (fst p) (snd p))
             (combine seqs rows) = Ok dcms ->
  Forall2 (fun s row => String.length s = length row) seqs rows.
Proof.
  revert rows dcms.
  induction seqs as [| s seqs IH]; intros [| row rows] dcms Hlen H;
    simpl in Hlen; try discriminate; [constructor |].
  simpl in H.
  destruct (_make_dcm_from_euler s row) as [M | e] eqn:EM; simpl in H;
    [| discriminate].
  destruct (map_result _ (combine seqs rows)) as [Ms | e] eqn:EMs; simpl in H;
    [| discriminate].
  constructor.
  - exact (make_dcm_from_euler_ok_length s row M EM).
  - apply (IH rows Ms); [lia | exact EMs].
Qed.

(** What [from_euler] demands of an array of per-rotation sequences. *)
Lemma from_euler_array_ok_inv (seqs : list string) (angle_mat : ndarray)
      (deg : bool) (r : Rotation) :
  wf_ndarray angle_mat ->
  from_euler (Seq_array seqs) angle_mat deg = Ok r ->
  shape angle_mat = [length seqs; 3%nat]
  /\ Forall (fun s => String.length s = 3%nat) seqs.
Proof.
  assert (Hcore : forall am, wf_ndarray am ->
            from_euler (Seq_array seqs) am false = Ok r ->
            shape am = [length seqs; 3%nat]
            /\ Forall (fun s => String.length s = 3%nat) seqs).
  { intros am Hwf H. unfold from_euler in H.
    destruct am as [x | v | n1 m | n1 n2 t]; simpl in H; try discriminate.
    - destruct (length seqs =? length v)%nat; simpl in H; discriminate.
    - destruct (length seqs =? length m)%nat eqn:E1; simpl in H; [| discriminate].
      destruct (n1 =? 3)%nat eqn:E2; simpl in H; [| discriminate].
      apply Nat.eqb_eq in E1, E2. subst n1.
      apply bind_ok_inv in H. destruct H as [dcms [Hmap _]].
      split; [simpl; congruence |].
      pose proof (euler_rows_ok_lengths seqs m dcms E1 Hmap) as HF.
      simpl in Hwf. clear - HF Hwf.
      induction HF as [| s row seqs m Hs _ IH]; constructor.
      + inversion Hwf; subst. congruence.
      + apply IH. inversion Hwf; assumption.
    - destruct (length seqs =? length t)%nat; simpl in H; discriminate. }
  intros Hwf H. destruct deg.
  - rewrite from_euler_deg in H.
    rewrite <- (shape_ndarray_map deg2rad angle_mat).
    apply Hcore; [apply wf_ndarray_map; exact Hwf | exact H].
  - apply Hcore; assumption.
Qed.

(** A single string with a 1-d angle array of its length: the call is
    [from_dcm] of the composed matrix. *)
Lemma from_euler_str_valid (s : string) (angle : list R) (deg : bool) :
  valid_sequence s -> String.length s = length angle ->
  exists M,
    _make_dcm_from_euler s (if deg then map deg2rad angle else angle) = Ok M
    /\ from_euler (Seq_str s) (A1 angle) deg
       = Ok (mkRotation true (from_dcm_rows [M])).
Proof.
  intros Hv Hlen.
  assert (Hlen' : String.length s
                  = length (if deg then map deg2rad angle else angle))
    by (destruct deg; rewrite ?length_map; exact Hlen).
  destruct (make_dcm_from_euler_valid s _ Hv Hlen') as [M [EM HM]].
  exists M. split; [exact EM |].
  unfold from_euler.
  destruct deg; cbn [ndarray_map shape_first shape bind ndim rows_of nth];
    rewrite ?length_map, <- Hlen, Nat.eqb_refl; cbn [negb orb Nat.eqb];
    rewrite EM; cbn [bind]; apply from_dcm_single_ok; exact HM.
Qed.

(** Valid three-letter sequences compose with rows of three angles. *)
Lemma euler_rows_all_ok (seqs : list string) (rows : list (list R)) :
  Forall (fun s => valid_sequence s /\ String.length s = 3%nat) seqs ->
  Forall (fun row => length row = 3%nat) rows ->
  length seqs = length rows ->
  Forall (fun p : string * list R =>
            exists M, _make_dcm_from_euler (fst p) (snd p) = Ok M)
         (combine seqs rows).
Proof.
  intros Hseqs. revert rows.
  induction Hseqs as [| s seqs [Hv Hs] _ IH]; intros [| row rows] Hrows Hlen;
    simpl in *; try discriminate; constructor.
  - inversion Hrows; subst. simpl.
    destruct (make_dcm_from_euler_valid s row Hv) as [M [EM _]]; [congruence |].
    exists M. exact EM.
  - apply IH; [inversion Hrows; assumption | lia].
Qed.

(** A single sequence string with an angle array of rank 2 is refused,
    whatever the string and the array. *)
Lemma from_euler_str_rank2 (s : string) (n1 : nat) (m : list (list R))
      (deg : bool) :
  from_euler (Seq_str s) (A2 n1 m) deg = Raise ValueError_axis_sequence.
Proof.
  unfold from_euler.
  destruct deg; cbn [ndarray_map shape_first shape bind ndim Nat.eqb negb];
    rewrite orb_true_r; reflexivity.
Qed.

(** C3, as stated, fails: the sequence "xyz" with the (2, 3) angle array of
    zeros is refused. *)
Lemma C3_single_string_batch_refused :
  from_euler (Seq_str "xyz") (A2 3 [ [0; 0; 0]; [0; 0; 0] ]) false
  = Raise ValueError_axis_sequence
  /\ is_ok (from_euler (Seq_str "xyz") (A2 3 [ [0; 0; 0]; [0; 0; 0] ]) false)
     = false.
Proof. split; reflexivity. Qed.

(** C3, amended: [from_euler] accepts a batch of angle triples together
    with an array of sequence strings, one per angle row: for N valid
    3-character sequences and an (N, 3) angle array the call succeeds and
    constructs N rotations, the i-th from the matrix that composes the i-th
    sequence with the i-th angle row.  A single sequence string with an
    (N, 3) angle array is always refused with the invalid-axis-sequence
    error. *)
Theorem C3_from_euler_batch (seqs : list string) (m : list (list R))
        (deg : bool) :
  Forall (fun s => valid_sequence s /\ String.length s = 3%nat) seqs ->
  Forall (fun row => length row = 3%nat) m ->
  length seqs = length m ->
  (exists dcms,
      Forall2 (fun (p : string * list R) M =>
                 _make_dcm_from_euler (fst p) (snd p) = Ok M)
              (combine seqs (if deg then map (map deg2rad) m else m)) dcms
      /\ length dcms = length seqs
      /\ from_euler (Seq_array seqs) (A2 3 m) deg
         = Ok (mkRotation false (from_dcm_rows dcms))
      /\ length (from_dcm_rows dcms) = length seqs)
  /\ (forall s : string,
      from_euler (Seq_str s) (A2 3 m) deg = Raise ValueError_axis_sequence).
Proof.
  intros Hseqs Hrows Hlen. split; [| intros s; apply from_euler_str_rank2].
  set (m' := if deg then map (map deg2rad) m else m).
  assert (Hrows' : Forall (fun row => length row = 3%nat) m').
  { unfold m'. destruct deg; [| exact Hrows].
    apply Forall_map. eapply Forall_impl; [| exact Hrows].
    intros row Hr. simpl. rewrite length_map. exact Hr. }
  assert (Hlen' : length seqs = length m').
  { unfold m'. destruct deg; rewrite ?length_map; exact Hlen. }
  assert (Hall : Forall (fun p : string * list R =>
                           exists M, _make_dcm_from_euler (fst p) (snd p) = Ok M)
                        (combine seqs m')).
  { apply euler_rows_all_ok; assumption. }
  destruct (map_result_all_ok _ _ Hall) as [dcms Hmap].
  pose proof (map_result_Forall2 _ _ _ Hmap) as HF2.
  assert (Hlend : length dcms = length seqs).
  { rewrite <- (Forall2_length HF2), length_combine. lia. }
  exists dcms. split; [exact HF2 |]. split; [exact Hlend |]. split.
  - unfold from_euler.
    assert (E : (if deg then ndarray_map deg2rad (A2 3 m) else A2 3 m) = A2 3 m')
      by (unfold m'; destruct deg; reflexivity).
    rewrite E. cbn [shape_first shape bind ndim shape_last rev app Nat.eqb negb orb].
    rewrite Hlen', Nat.eqb_refl. cbn [negb rows_of].
    rewrite Hmap. cbn [bind]. apply from_dcm_batch_ok.
  - unfold from_dcm_rows. rewrite !length_map. exact Hlend.
Qed.

Lemma C3_from_euler_batch_witness :
  Forall (fun s => valid_sequence s /\ String.length s = 3%nat) ["xyz"%string]
  /\ Forall (fun row => length row = 3%nat) [ [0; 0; 0] ]
  /\ length ["xyz"%string] = length [ [0; 0; 0] ]
  /\ exists dcms,
       from_euler (Seq_array ["xyz"%string]) (A2 3 [ [0; 0; 0] ]) false
       = Ok (mkRotation false (from_dcm_rows dcms))
       /\ length (from_dcm_rows dcms) = 1%nat.
Proof.
  assert (H1 : Forall (fun s => valid_sequence s /\ String.length s = 3%nat)
                      ["xyz"%string]).
  { constructor; [| constructor]. split; [| reflexivity].
    left. split; [simpl; lia |].
    repeat constructor; simpl; tauto. }
  assert (H2 : Forall (fun row => length row = 3%nat) [ [0; 0; 0] ])
    by (repeat constructor).
  assert (H3 : length ["xyz"%string] = length [ [0; 0; 0] ]) by reflexivity.
  split; [exact H1 |]. split; [exact H2 |]. split; [exact H3 |].
  destruct (proj1 (C3_from_euler_batch ["xyz"%string] [ [0; 0; 0] ] false H1 H2 H3))
    as [dcms [_ [_ [E L]]]].
  exists dcms. split; [exact E | exact L].
Defined.

(** C10: with an array of per-rotation sequences, [from_euler] succeeds
    only on an (N, 3) angle array and sequences of exactly three letters,
    so an array holding a sequence of one or two letters always raises;
    yet a single string of one or two axis letters with an angle vector of
    the same length is accepted. *)
Theorem C10_per_rotation_sequences_need_three_axes :
  (forall seqs angle_mat deg r,
      wf_ndarray angle_mat ->
      from_euler (Seq_array seqs) angle_mat deg = Ok r ->
      shape angle_mat = [length seqs; 3%nat]
      /\ Forall (fun s => String.length s = 3%nat) seqs)
  /\ (forall seqs angle_mat deg s,
      wf_ndarray angle_mat ->
      In s seqs ->
      String.length s = 1%nat \/ String.length s = 2%nat ->
      exists e, from_euler (Seq_array seqs) angle_mat deg = Raise e)
  /\ (forall s angle deg,
      valid_sequence s ->
      String.length s = 1%nat \/ String.length s = 2%nat ->
      length angle = String.length s ->
      exists r, from_euler (Seq_str s) (A1 angle) deg = Ok r).
Proof.
  split; [| split].
  - intros seqs angle_mat deg r Hwf H.
    exact (from_euler_array_ok_inv seqs angle_mat deg r Hwf H).
  - intros seqs angle_mat deg s Hwf Hin Hs.
    destruct (from_euler (Seq_array seqs) angle_mat deg) as [r | e] eqn:E.
    + destruct (from_euler_array_ok_inv seqs angle_mat deg r Hwf E) as [_ Hall].
      rewrite Forall_forall in Hall. specialize (Hall s Hin). lia.
    + exists e. reflexivity.
  - intros s angle deg Hv _ Hlen.
    destruct (from_euler_str_valid s angle deg Hv (eq_sym Hlen)) as [M [_ E]].
    eexists. exact E.
Qed.

Lemma C10_per_rotation_sequences_need_three_axes_witness :
  (wf_ndarray (A2 3 [ [0; 0; 0] ])
   /\ In "xy"%string ["xy"%string]
   /\ (String.length "xy" = 1%nat \/ String.length "xy" = 2%nat)
   /\ exists e, from_euler (Seq_array ["xy"%string]) (A2 3 [ [0; 0; 0] ]) false
                = Raise e)
  /\ (valid_sequence "xy"
      /\ length [0; 0] = String.length "xy"
      /\ exists r, from_euler (Seq_str "xy") (A1 [0; 0]) false = Ok r).
Proof.
  assert (Hwf : wf_ndarray (A2 3 [ [0; 0; 0] ])) by (repeat constructor).
  assert (Hin : In "xy"%string ["xy"%string]) by (left; reflexivity).
  assert (Hs : String.length "xy" = 1%nat \/ String.length "xy" = 2%nat)
    by (right; reflexivity).
  assert (Hv : valid_sequence "xy").
  { left. split; [simpl; lia |]. repeat constructor; simpl; tauto. }
  assert (Hl : length [0; 0] = String.length "xy") by reflexivity.
  destruct C10_per_rotation_sequences_need_three_axes as [_ [Hb Hc]].
  split.
  - split; [exact Hwf |]. split; [exact Hin |]. split; [exact Hs |].
    exact (Hb ["xy"%string] (A2 3 [ [0; 0; 0] ]) false "xy"%string Hwf Hin Hs).
  - split; [exact Hv |]. split; [exact Hl |].
    exact (Hc "xy"%string [0; 0] false Hv Hs Hl).
Defined.

(** * Further properties of the class *)

(** ** The constructor: shapes, normalization, stored rows *)



(** X2: with [normalized=True] the input is stored as it is, and
    [as_quaternion] gives it back with its shape: a (4,) input comes back
    as a (4,) array, an (N, 4) input as an (N, 4) array, also for N = 1 and
    also when a row is zero. *)
Theorem X2_normalized_as_quaternion_roundtrip (quat : ndarray) :
  quat_shape_bad quat = false ->
  exists r,
    from_quaternion quat true = Ok r
    /\ _quat r = rows_of quat
    /\ (_single r = true <-> ndim quat = 1%nat)
    /\ as_quaternion r = quat.
Proof.
  intros Hbad. unfold from_quaternion, Rotation_init. rewrite Hbad.
  eexists. split; [reflexivity |]. cbn [_quat _single].
  unfold quat_shape_bad, shape_last in Hbad.
  destruct quat as [x | v | n1 m | n1 n2 t]; cbn in Hbad; try discriminate.
  - destruct (Nat.eqb_spec (length v) 4) as [E | E]; [| discriminate].
    unfold as_quaternion. cbn. rewrite E. cbn.
    repeat split; reflexivity.
  - destruct (Nat.eqb_spec n1 4) as [E | E]; [| discriminate]. subst n1.
    unfold as_quaternion. cbn [_single _quat shape rows_of ndim].
    rewrite nat_list_eqb_length by (simpl; lia).
    repeat split; try reflexivity; discriminate.
Qed.

Lemma X2_normalized_as_quaternion_roundtrip_witness :
  quat_shape_bad (A2 4 [ [0; 0; 0; 0] ]) = false
  /\ exists r,
       from_quaternion (A2 4 [ [0; 0; 0; 0] ]) true = Ok r
       /\ _quat r = rows_of (A2 4 [ [0; 0; 0; 0] ])
       /\ (_single r = true <-> ndim (A2 4 [ [0; 0; 0; 0] ]) = 1%nat)
       /\ as_quaternion r = A2 4 [ [0; 0; 0; 0] ].
Proof.
  split; [reflexivity |].
  exact (X2_normalized_as_quaternion_roundtrip (A2 4 [ [0; 0; 0; 0] ]) eq_refl).
Defined.

Lemma Rsum_sq_nonneg (l : list R) : 0 <= Rsum (map (fun x => x * x) l).
Proof.
  induction l as [| x l IH]; simpl; [lra |]. pose proof (Rle_0_sqr x) as H.
  unfold Rsqr in H. lra.
Qed.

Lemma Rsum_sq_scaled (f : R -> R) (k : R) (l : list R) :
  (forall x, f x = k * x) ->
  Rsum (map (fun x => x * x) (map f l)) = k * k * Rsum (map (fun x => x * x) l).
Proof.
  intros Hf. unfold Rsum. induction l as [| x l IH]; simpl; [ring |].
  rewrite IH, Hf. ring.
Qed.

Lemma norm_scaled (f : R -> R) (k : R) (l : list R) :
  (forall x, f x = k * x) -> norm (map f l) = Rabs k * norm l.
Proof.
  intros Hf. unfold norm. rewrite (Rsum_sq_scaled f k l Hf).
  change (k * k) with (Rsqr k).
  rewrite sqrt_mult_alt by apply Rle_0_sqr.
  rewrite sqrt_Rsqr_abs. reflexivity.
Qed.

Lemma norm_sq (l : list R) : norm l * norm l = Rsum (map (fun x => x * x) l).
Proof. unfold norm. apply sqrt_sqrt, Rsum_sq_nonneg. Qed.

(** A row divided by its own non-zero norm has norm 1. *)
Lemma norm_row_div (row : list R) :
  norm row <> 0 -> norm (row_div row (norm row)) = 1.
Proof.
  intros Hn. pose proof (norm_nonneg row) as H0.
  unfold row_div. rewrite (norm_scaled _ (/ norm row)).
  - rewrite Rabs_pos_eq.
    + field. exact Hn.
    + left. apply Rinv_0_lt_compat. lra.
  - intros x. unfold Rdiv. ring.
Qed.

Lemma unit_quat_of_norm (q : list R) :
  length q = 4%nat -> norm q = 1 -> unit_quat q.
Proof.
  intros Hl Hn. split; [exact Hl |]. rewrite <- norm_sq, Hn. ring.
Qed.

Lemma unit_quat_norm (q : list R) : unit_quat q -> norm q = 1.
Proof. intros [_ H]. unfold norm. rewrite H. apply sqrt_1. Qed.

Lemma length_row_div (row : list R) (n : R) : length (row_div row n) = length row.
Proof. unfold row_div. apply length_map. Qed.

Lemma wf_rows_length4 (quat : ndarray) :
  wf_ndarray quat -> quat_shape_bad quat = false ->
  Forall (fun row => length row = 4%nat) (rows_of quat).
Proof.
  intros Hwf Hbad. unfold quat_shape_bad, shape_last in Hbad.
  destruct quat as [x | v | n1 m | n1 n2 t]; cbn in Hbad; try discriminate.
  - destruct (Nat.eqb_spec (length v) 4) as [E | E]; [| discriminate].
    repeat constructor. exact E.
  - destruct (Nat.eqb_spec n1 4) as [E | E]; [| discriminate]. subst n1.
    exact Hwf.
Qed.

(** What a successful construction with [normalized=False] went through. *)
Lemma Rotation_init_false_inv (quat : ndarray) (r : Rotation) :
  Rotation_init quat false = Ok r ->
  quat_shape_bad quat = false
  /\ (forall row, In row (rows_of quat) -> norm row <> 0)
  /\ r = mkRotation (nat_list_eqb (shape quat) [4%nat])
                    (map (fun row => row_div row (norm row)) (rows_of quat)).
Proof.
  unfold Rotation_init. destruct (quat_shape_bad quat); [discriminate |].
  pose proof (existsb_zero_norms (rows_of quat)) as Hz.
  destruct (existsb _ _); [discriminate |].
  assert (Hall : forall row, In row (rows_of quat) -> norm row <> 0).
  { intros row Hin Hrow.
    assert (false = true) by (apply Hz; exists row; auto). discriminate. }
  rewrite (normalize_rows_nonzero _ Hall). intros H. injection H as <-.
  repeat split; assumption.
Qed.

Lemma Rotation_init_false_ok (quat : ndarray) :
  quat_shape_bad quat = false ->
  (forall row, In row (rows_of quat) -> norm row <> 0) ->
  Rotation_init quat false
  = Ok (mkRotation (nat_list_eqb (shape quat) [4%nat])
                   (map (fun row => row_div row (norm row)) (rows_of quat))).
Proof.
  intros Hbad Hall. unfold Rotation_init. rewrite Hbad.
  pose proof (existsb_zero_norms (rows_of quat)) as Hz.
  destruct (existsb _ _).
  - destruct (proj1 Hz eq_refl) as [row [Hin Hrow]]. elim (Hall row Hin Hrow).
  - rewrite (normalize_rows_nonzero _ Hall). reflexivity.
Qed.

Lemma Forall2_row_div (rows : list (list R)) :
  (forall row, In row rows -> norm row <> 0) ->
  Forall2 (fun row q => 0 < norm row /\ row = map (fun x => norm row * x) q)
          rows (map (fun row => row_div row (norm row)) rows).
Proof.
  induction rows as [| row rows IH]; intros Hall; simpl; constructor.
  - pose proof (norm_nonneg row) as H0.
    assert (Hn : norm row <> 0) by (apply Hall; left; reflexivity).
    split; [lra |].
    unfold row_div. rewrite map_map. rewrite <- (map_id row) at 1.
    apply map_ext. intros x. field. exact Hn.
  - apply IH. intros row' Hin. apply Hall. right. exact Hin.
Qed.

(** X3: whenever the constructor with [normalized=False] returns, every
    stored row is a unit quaternion, there are as many rows as input rows,
    and each stored row is parallel to its input row. *)
Theorem X3_init_stores_unit_rows (quat : ndarray) (r : Rotation) :
  wf_ndarray quat ->
  Rotation_init quat false = Ok r ->
  Forall unit_quat (_quat r)
  /\ length (_quat r) = length (rows_of quat)
  /\ Forall2 (fun row q => 0 < norm row /\ row = map (fun x => norm row * x) q)
             (rows_of quat) (_quat r).
Proof.
  intros Hwf H.
  destruct (quat_shape_bad quat) eqn:Hbad.
  { unfold Rotation_init in H. rewrite Hbad in H. discriminate. }
  destruct (Rotation_init_false_inv quat r H) as [_ [Hall ->]]. cbn [_quat].
  pose proof (wf_rows_length4 quat Hwf Hbad) as Hlen.
  split; [| split].
  - apply Forall_map. rewrite Forall_forall. intros row Hin.
    rewrite Forall_forall in Hlen.
    apply unit_quat_of_norm.
    + rewrite length_row_div. apply Hlen, Hin.
    + apply norm_row_div, Hall, Hin.
  - apply length_map.
  - apply Forall2_row_div. exact Hall.
Qed.

Lemma X3_init_stores_unit_rows_witness :
  wf_ndarray (A1 [0; 0; 0; 2])
  /\ Rotation_init (A1 [0; 0; 0; 2]) false
     = Ok (mkRotation true [ [0 / 2; 0 / 2; 0 / 2; 2 / 2] ])
  /\ Forall unit_quat [ [0 / 2; 0 / 2; 0 / 2; 2 / 2] ].
Proof.
  assert (Hn : norm [0; 0; 0; 2] = 2).
  { rewrite norm4. replace (0 * 0 + 0 * 0 + 0 * 0 + 2 * 2) with (2 * 2) by ring.
    apply sqrt_square. lra. }
  assert (H : Rotation_init (A1 [0; 0; 0; 2]) false
              = Ok (mkRotation true [ [0 / 2; 0 / 2; 0 / 2; 2 / 2] ])).
  { rewrite Rotation_init_false_ok.
    - cbn -[norm]. rewrite Hn. reflexivity.
    - reflexivity.
    - intros row [<- | []]. rewrite Hn. lra. }
  split; [exact I |]. split; [exact H |].
  exact (proj1 (X3_init_stores_unit_rows (A1 [0; 0; 0; 2]) _ I H)).
Defined.

Lemma row_div_one (row : list R) : row_div row 1 = row.
Proof.
  unfold row_div. rewrite <- (map_id row) at 2. apply map_ext.
  intros x. field.
Qed.

(** X4: on rows that already have norm 1, the constructor gives the same
    result with [normalized=False] as with [normalized=True]. *)
Theorem X4_normalization_idempotent (quat : ndarray) :
  Forall (fun row => norm row = 1) (rows_of quat) ->
  Rotation_init quat false = Rotation_init quat true.
Proof.
  intros Hu. rewrite Forall_forall in Hu.
  destruct (quat_shape_bad quat) eqn:Hbad.
  - unfold Rotation_init. rewrite Hbad. reflexivity.
  - rewrite Rotation_init_false_ok; [| exact Hbad |].
    + unfold Rotation_init. rewrite Hbad. do 2 f_equal.
      rewrite <- (map_id (rows_of quat)) at 2.
      apply map_ext_in. intros row Hin. rewrite (Hu row Hin). apply row_div_one.
    + intros row Hin. rewrite (Hu row Hin). lra.
Qed.

Lemma X4_normalization_idempotent_witness :
  Forall (fun row => norm row = 1) (rows_of (A2 4 [ [0; 0; 0; 1]; [1; 0; 0; 0] ]))
  /\ Rotation_init (A2 4 [ [0; 0; 0; 1]; [1; 0; 0; 0] ]) false
     = Rotation_init (A2 4 [ [0; 0; 0; 1]; [1; 0; 0; 0] ]) true.
Proof.
  assert (H : Forall (fun row => norm row = 1)
                     (rows_of (A2 4 [ [0; 0; 0; 1]; [1; 0; 0; 0] ]))).
  { repeat constructor; apply norm4_unit; lra. }
  split; [exact H | exact (X4_normalization_idempotent _ H)].
Defined.

Lemma quat_shape_bad_map (f : R -> R) (quat : ndarray) :
  quat_shape_bad (ndarray_map f quat) = quat_shape_bad quat.
Proof.
  unfold quat_shape_bad, shape_last. rewrite shape_ndarray_map.
  destruct quat; reflexivity.
Qed.

Lemma rows_of_map (f : R -> R) (quat : ndarray) :
  rows_of (ndarray_map f quat) = map (map f) (rows_of quat).
Proof. destruct quat; reflexivity. Qed.

Lemma Rotation_init_false_zero (quat : ndarray) :
  quat_shape_bad quat = false ->
  (exists row, In row (rows_of quat) /\ norm row = 0) ->
  Rotation_init quat false = Raise ValueError_zero_norm.
Proof.
  intros Hbad Hex. unfold Rotation_init. rewrite Hbad.
  rewrite (proj2 (existsb_zero_norms (rows_of quat)) Hex). reflexivity.
Qed.

(** X5: the constructor with [normalized=False] does not see a positive
    scale: multiplying the whole input by k > 0 gives the same result,
    error or rotation. *)
Theorem X5_init_scale_invariant (k : R) (quat : ndarray) :
  0 < k ->
  Rotation_init (ndarray_map (fun x => k * x) quat) false
  = Rotation_init quat false.
Proof.
  intros Hk.
  assert (Hnorm : forall row, norm (map (fun x => k * x) row) = k * norm row).
  { intros row. rewrite (norm_scaled _ k) by reflexivity.
    rewrite Rabs_pos_eq by lra. reflexivity. }
  destruct (quat_shape_bad quat) eqn:Hbad.
  { unfold Rotation_init. rewrite quat_shape_bad_map, Hbad. reflexivity. }
  assert (Hbad' : quat_shape_bad (ndarray_map (fun x => k * x) quat) = false)
    by (rewrite quat_shape_bad_map; exact Hbad).
  destruct (existsb (fun b => b)
              (map (fun n => Reqb n 0) (map norm (rows_of quat)))) eqn:Ez.
  - apply existsb_zero_norms in Ez. destruct Ez as [row [Hin Hrow]].
    rewrite (Rotation_init_false_zero quat Hbad) by (exists row; auto).
    apply Rotation_init_false_zero; [exact Hbad' |].
    exists (map (fun x => k * x) row). split.
    + rewrite rows_of_map. apply in_map. exact Hin.
    + rewrite Hnorm, Hrow. ring.
  - assert (Hall : forall row, In row (rows_of quat) -> norm row <> 0).
    { intros row Hin Hrow.
      assert (Ht : existsb (fun b => b)
                     (map (fun n => Reqb n 0) (map norm (rows_of quat))) = true)
        by (apply existsb_zero_norms; exists row; auto).
      rewrite Ht in Ez. discriminate. }
    rewrite (Rotation_init_false_ok quat Hbad Hall).
    rewrite Rotation_init_false_ok; [| exact Hbad' |].
    + rewrite shape_ndarray_map, rows_of_map, map_map. do 2 f_equal.
      apply map_ext_in. intros row Hin. rewrite Hnorm.
      unfold row_div. rewrite map_map. apply map_ext. intros x. field.
      split; [apply Hall, Hin | lra].
    + rewrite rows_of_map. intros row' Hin'.
      apply in_map_iff in Hin'. destruct Hin' as [row [<- Hin]].
      rewrite Hnorm. specialize (Hall row Hin). nra.
Qed.

Lemma X5_init_scale_invariant_witness :
  0 < 2
  /\ Rotation_init (ndarray_map (fun x => 2 * x) (A1 [0; 0; 0; 1])) false
     = Rotation_init (A1 [0; 0; 0; 1]) false.
Proof.
  assert (H : 0 < 2) by lra.
  split; [exact H | exact (X5_init_scale_invariant 2 (A1 [0; 0; 0; 1]) H)].
Defined.

(** ** Quaternion to matrix and back *)

Lemma idx_map_opp (q : list R) (i : nat) : idx (map Ropp q) i = - idx q i.
Proof.
  unfold idx. rewrite <- (map_nth Ropp q 0 i). f_equal. ring.
Qed.

Lemma as_dcm_row_opp (q : list R) : as_dcm_row (map Ropp q) = as_dcm_row q.
Proof.
  unfold as_dcm_row. rewrite !idx_map_opp. cbv zeta. list_eq.
Qed.

(** X6: [as_dcm] does not see the global sign of the stored quaternions:
    negating every row gives the same matrices. *)
Theorem X6_as_dcm_sign_invariant (single : bool) (rows : list (list R)) :
  as_dcm (mkRotation single (map (map Ropp) rows))
  = as_dcm (mkRotation single rows).
Proof.
  unfold as_dcm. cbn [_single _quat]. rewrite map_map.
  rewrite (map_ext _ _ as_dcm_row_opp). reflexivity.
Qed.

(** The row [from_dcm] extracts from any matrix has a component that is at
    least 1, so the division by its norm is never a division by zero. *)
Lemma from_dcm_row_norm_ge_1 (M : list (list R)) : 1 <= norm (from_dcm_row M).
Proof.
  assert (Hsq : forall x y z w, 1 <= x \/ 1 <= y \/ 1 <= z \/ 1 <= w ->
                                1 <= norm [x; y; z; w]).
  { intros x y z w H. rewrite norm4. rewrite <- sqrt_1 at 1.
    apply sqrt_le_1_alt. nra. }
  unfold from_dcm_row, argmax. cbn -[idx2 Rltb].
  unfold Rltb.
  repeat match goal with
         | |- context [Rlt_dec ?a ?b] => destruct (Rlt_dec a b)
         end; cbn -[idx2 norm]; apply Hsq; lra.
Qed.

Lemma dcm_shape_ok_iff (dcm : ndarray) :
  dcm_shape_bad dcm = false
  <-> shape dcm = [3; 3]%nat \/ exists N, shape dcm = [N; 3; 3]%nat.
Proof.
  unfold dcm_shape_bad.
  destruct dcm as [x | v | n1 m | n1 n2 t]; cbn -[nat_list_eqb].
  - split; [discriminate | intros [H | [N H]]; discriminate].
  - split; [discriminate | intros [H | [N H]]; discriminate].
  - unfold nat_list_eqb.
    destruct (list_eq_dec Nat.eq_dec [length m; n1] [3; 3]%nat) as [E | E];
      cbn; split.
    + intros _. left. exact E.
    + reflexivity.
    + discriminate.
    + intros [H | [N H]]; [contradiction | discriminate].
  - unfold nat_list_eqb.
    destruct (list_eq_dec Nat.eq_dec [n1; n2] [3; 3]%nat) as [E | E];
      cbn; split.
    + intros _. right. exists (length t). injection E as -> ->. reflexivity.
    + reflexivity.
    + discriminate.
    + intros [H | [N H]]; [discriminate |].
      injection H as _ -> ->. contradiction.
Qed.

Lemma from_dcm_ok (dcm : ndarray) :
  dcm_shape_bad dcm = false ->
  from_dcm dcm
  = Ok (mkRotation (nat_list_eqb (shape dcm) [3; 3]%nat)
                   (from_dcm_rows (mats_of dcm))).
Proof.
  intros Hbad.
  destruct (proj1 (dcm_shape_ok_iff dcm) Hbad) as [Hs | [N Hs]].
  - destruct dcm as [x | v | n1 m | n1 n2 t]; try discriminate.
    injection Hs as Hm ->. rewrite (from_dcm_single_ok m Hm).
    cbn [shape mats_of]. rewrite Hm, nat_list_eqb_refl. reflexivity.
  - destruct dcm as [x | v | n1 m | n1 n2 t]; try discriminate.
    injection Hs as _ -> ->. rewrite from_dcm_batch_ok.
    cbn [shape mats_of]. rewrite nat_list_eqb_length by (simpl; lia).
    reflexivity.
Qed.

(** X7: [from_dcm] raises exactly on inputs whose shape is neither (3, 3)
    nor (N, 3, 3), and raises nothing else; on every other input, orthogonal
    or not, it returns one stored row per matrix and every stored row is a
    unit quaternion. *)
Theorem X7_from_dcm_total_unit (dcm : ndarray) :
  (from_dcm dcm = Raise ValueError_dcm_shape
   <-> ~ (shape dcm = [3; 3]%nat \/ exists N, shape dcm = [N; 3; 3]%nat))
  /\ (forall e, from_dcm dcm = Raise e -> e = ValueError_dcm_shape)
  /\ (forall r, from_dcm dcm = Ok r ->
      (_single r = true <-> ndim dcm = 2%nat)
      /\ length (_quat r) = length (mats_of dcm)
      /\ Forall unit_quat (_quat r)).
Proof.
  pose proof (dcm_shape_ok_iff dcm) as Hiff.
  destruct (dcm_shape_bad dcm) eqn:Hbad.
  - assert (E : from_dcm dcm = Raise ValueError_dcm_shape)
      by (unfold from_dcm; rewrite Hbad; reflexivity).
    rewrite E. split; [| split].
    + split; [| reflexivity]. intros _ H. apply Hiff in H. discriminate.
    + intros e H. injection H as <-. reflexivity.
    + discriminate.
  - rewrite (from_dcm_ok dcm Hbad). split; [| split].
    + split; [discriminate |]. intros H. elim H. apply Hiff. reflexivity.
    + discriminate.
    + intros r H. injection H as <-. cbn [_single _quat]. split; [| split].
      * destruct (proj1 Hiff eq_refl) as [Hs | [N Hs]]; rewrite Hs.
        -- rewrite nat_list_eqb_refl.
           destruct dcm; try discriminate. split; reflexivity.
        -- rewrite nat_list_eqb_length by (simpl; lia).
           destruct dcm; try discriminate. split; discriminate.
      * unfold from_dcm_rows. rewrite !length_map. reflexivity.
      * unfold from_dcm_rows. rewrite map_map. apply Forall_map.
        rewrite Forall_forall. intros M _.
        pose proof (from_dcm_row_norm_ge_1 M) as Hge.
        apply unit_quat_of_norm.
        -- rewrite length_row_div. apply length_from_dcm_row.
        -- apply norm_row_div. lra.
Qed.

Lemma X7_from_dcm_total_unit_witness :
  from_dcm (A2 3 eye3) = Ok (mkRotation true (from_dcm_rows [eye3]))
  /\ Forall unit_quat (from_dcm_rows [eye3]).
Proof.
  assert (H : from_dcm (A2 3 eye3) = Ok (mkRotation true (from_dcm_rows [eye3])))
    by (apply from_dcm_single_ok; reflexivity).
  split; [exact H |].
  destruct (X7_from_dcm_total_unit (A2 3 eye3)) as [_ [_ Hok]].
  exact (proj2 (proj2 (Hok _ H))).
Defined.

(** One row through [as_dcm] and [from_dcm]: the row or its opposite. *)
Lemma dcm_roundtrip_row (q : list R) :
  unit_quat q ->
  let q' := row_div (from_dcm_row (as_dcm_row q))
                    (norm (from_dcm_row (as_dcm_row q))) in
  q' = q \/ q' = map Ropp q.
Proof.
  intros Hq. destruct (unit_quat_inv q Hq) as [x [y [z [w [-> H]]]]].
  destruct (from_dcm_row_as_dcm_row x y z w H) as [c [Hc Hrow]].
  cbv zeta. rewrite Hrow. exact (row_div_scaled c x y z w H Hc).
Qed.

Lemma dcm_roundtrip_rows (rows : list (list R)) :
  Forall unit_quat rows ->
  Forall2 (fun q q' => q' = q \/ q' = map Ropp q)
          rows (from_dcm_rows (map as_dcm_row rows)).
Proof.
  unfold from_dcm_rows. induction 1 as [| q rows Hq _ IH]; simpl; constructor.
  - exact (dcm_roundtrip_row q Hq).
  - exact IH.
Qed.

Lemma as_dcm_rows_sign (rows rows' : list (list R)) :
  Forall2 (fun q q' => q' = q \/ q' = map Ropp q) rows rows' ->
  map as_dcm_row rows' = map as_dcm_row rows.
Proof.
  induction 1 as [| q q' rows rows' [-> | ->] _ IH]; simpl;
    rewrite ?as_dcm_row_opp, ?IH; reflexivity.
Qed.

(** X8: for a rotation whose stored rows are unit quaternions, single or
    batch, [from_dcm (as_dcm self)] returns a rotation of the same kind
    whose rows are, one by one, the stored row or its opposite; its
    matrices are exactly those of [self]. *)
Theorem X8_dcm_roundtrip_batch (self : Rotation) :
  Forall unit_quat (_quat self) ->
  (_single self = true -> length (_quat self) = 1%nat) ->
  exists r',
    from_dcm (as_dcm self) = Ok r'
    /\ _single r' = _single self
    /\ Forall2 (fun q q' => q' = q \/ q' = map Ropp q) (_quat self) (_quat r')
    /\ as_dcm r' = as_dcm self.
Proof.
  intros Hu Hone. destruct self as [single rows]. cbn [_single _quat] in *.
  pose proof (dcm_roundtrip_rows rows Hu) as HF.
  destruct single.
  - specialize (Hone eq_refl).
    destruct rows as [| q [| ? ?]]; try discriminate.
    exists (mkRotation true (from_dcm_rows (map as_dcm_row [q]))).
    split; [apply (from_dcm_single_ok (as_dcm_row q)); reflexivity |].
    cbn [_single _quat].
    split; [reflexivity |]. split; [exact HF |].
    unfold as_dcm. cbn [_single _quat].
    rewrite (as_dcm_rows_sign _ _ HF). reflexivity.
  - unfold as_dcm. cbn [_single _quat].
    rewrite from_dcm_batch_ok.
    eexists. split; [reflexivity |]. cbn [_single _quat].
    split; [reflexivity |]. split; [exact HF |].
    unfold as_dcm. cbn [_single _quat].
    rewrite (as_dcm_rows_sign _ _ HF). reflexivity.
Qed.

Lemma X8_dcm_roundtrip_batch_witness :
  Forall unit_quat (_quat (mkRotation false [ [0; 0; 0; 1]; [1; 0; 0; 0] ]))
  /\ exists r',
       from_dcm (as_dcm (mkRotation false [ [0; 0; 0; 1]; [1; 0; 0; 0] ])) = Ok r'
       /\ _single r' = false
       /\ as_dcm r' = as_dcm (mkRotation false [ [0; 0; 0; 1]; [1; 0; 0; 0] ]).
Proof.
  assert (H : Forall unit_quat
                (_quat (mkRotation false [ [0; 0; 0; 1]; [1; 0; 0; 0] ]))).
  { repeat constructor; unfold Rsum; simpl; lra. }
  split; [exact H |].
  destruct (X8_dcm_roundtrip_batch
              (mkRotation false [ [0; 0; 0; 1]; [1; 0; 0; 0] ]) H)
    as [r' [E [Hs [_ Hd]]]]; [discriminate |].
  exists r'. split; [exact E |]. split; [exact Hs | exact Hd].
Defined.

(** ** Rotation vectors: stored rows, sign, long vectors *)








Ltac rows_eq tac :=
  repeat (apply (f_equal2 (@cons R)); [tac |]); try reflexivity.

Lemma norm_opp (l : list R) : norm (map Ropp l) = norm l.
Proof.
  rewrite (norm_scaled Ropp (-1)) by (intros x; ring).
  rewrite (Rabs_left (-1)) by lra. ring.
Qed.

Lemma flip_row_opp (q : list R) :
  idx q 3 <> 0 -> flip_row (map Ropp q) = flip_row q.
Proof.
  intros Hw. unfold flip_row. rewrite idx_map_opp. unfold Rltb.
  destruct (Rlt_dec (- idx q 3) 0) as [H1 | H1];
    destruct (Rlt_dec (idx q 3) 0) as [H2 | H2]; try lra.
  - rewrite map_map. rewrite <- (map_id q) at 2. apply map_ext. intros x. ring.
  - apply map_ext. intros x. ring.
Qed.

(** X10: [as_rotvec] gives the same vector for a stored row and for its
    opposite whenever the scalar part is not zero (the sign flip makes the
    two rows equal); when the scalar part is zero no flip happens and the
    two outputs are opposite vectors. *)
Theorem X10_as_rotvec_sign (single : bool) (rows : list (list R)) :
  (Forall (fun q => idx q 3 <> 0) rows ->
   as_rotvec (mkRotation single (map (map Ropp) rows))
   = as_rotvec (mkRotation single rows))
  /\ (forall q, idx q 3 = 0 ->
      as_rotvec_row (map Ropp q) = map Ropp (as_rotvec_row q)).
Proof.
  split.
  - intros Hw. unfold as_rotvec. cbn [_single _quat]. rewrite map_map.
    assert (E : map (fun q => as_rotvec_row (map Ropp q)) rows
                = map as_rotvec_row rows).
    { apply map_ext_in. intros q Hin. rewrite Forall_forall in Hw.
      unfold as_rotvec_row. rewrite (flip_row_opp q (Hw q Hin)). reflexivity. }
    rewrite E. reflexivity.
  - intros q Hw. unfold as_rotvec_row.
    assert (F1 : flip_row q = q).
    { unfold flip_row. rewrite Hw, Rltb_false by lra. reflexivity. }
    assert (F2 : flip_row (map Ropp q) = map Ropp q).
    { unfold flip_row. rewrite idx_map_opp, Hw, Rltb_false by lra. reflexivity. }
    rewrite F1, F2. unfold as_rotvec_angle.
    rewrite firstn_map, norm_opp, idx_map_opp, Hw, Ropp_0.
    rewrite !map_map. apply map_ext. intros x. ring.
Qed.

Lemma X10_as_rotvec_sign_witness :
  Forall (fun q => idx q 3 <> 0) [ [0; 0; 0; 1] ]
  /\ as_rotvec (mkRotation true (map (map Ropp) [ [0; 0; 0; 1] ]))
     = as_rotvec (mkRotation true [ [0; 0; 0; 1] ]).
Proof.
  assert (H : Forall (fun q => idx q 3 <> 0) [ [0; 0; 0; 1] ]).
  { repeat constructor. cbn. lra. }
  split; [exact H |].
  exact (proj1 (X10_as_rotvec_sign true [ [0; 0; 0; 1] ]) H).
Defined.

Lemma cos_PI_minus (x : R) : cos (PI - x) = - cos x.
Proof. rewrite cos_minus, cos_PI, sin_PI. ring. Qed.

(** X11: a rotation vector v whose norm n lies between pi and 2 pi - 1e-3
    comes back from [as_rotvec (from_rotvec v)] as the vector of norm
    2 pi - n along the opposite axis, - ((2 pi - n) / n) v. *)
Theorem X11_long_rotvec_roundtrip (a b c : R) :
  PI < norm [a; b; c] < 2 * PI - small_angle_threshold ->
  exists r,
    from_rotvec (A1 [a; b; c]) = Ok r
    /\ as_rotvec r
       = A1 (map (fun x => - ((2 * PI - norm [a; b; c]) / norm [a; b; c]) * x)
                 [a; b; c]).
Proof.
  intros [Hlo Hhi]. rewrite from_rotvec_single. eexists. split; [reflexivity |].
  unfold as_rotvec. cbn [_quat _single map nth].
  unfold as_rotvec_row. rewrite from_rotvec_row_shape.
  set (n := norm [a; b; c]) in *.
  pose proof PI_bounds as HPI.
  assert (Hthr : small_angle_threshold = 1 / 1000) by reflexivity.
  assert (Hk : from_rotvec_scale n = sin (n / 2) / n).
  { unfold from_rotvec_scale. rewrite Rleb_false by lra. reflexivity. }
  assert (Hsin : 0 < sin (n / 2)) by (apply sin_gt_0; lra).
  assert (Hcos : cos (n / 2) < 0) by (apply cos_lt_0; lra).
  assert (Hkpos : 0 < from_rotvec_scale n).
  { rewrite Hk. apply Rdiv_lt_0_compat; lra. }
  unfold flip_row. cbn [idx nth]. rewrite Rltb_true by exact Hcos.
  cbn [map].
  set (k := from_rotvec_scale n) in *.
  assert (Hangle : as_rotvec_angle
                     [k * a * -1; k * b * -1; k * c * -1; cos (n / 2) * -1]
                   = 2 * PI - n).
  { unfold as_rotvec_angle. cbn [firstn idx nth].
    change [k * a * -1; k * b * -1; k * c * -1]
      with (map (fun x => k * x * -1) [a; b; c]).
    rewrite (norm_scaled _ (- k)) by (intros x; ring). fold n.
    rewrite Rabs_Ropp, (Rabs_pos_eq k) by lra.
    replace (k * n) with (sin (PI - n / 2))
      by (rewrite sin_PI_x, Hk; field; lra).
    replace (cos (n / 2) * -1) with (cos (PI - n / 2))
      by (rewrite cos_PI_minus; ring).
    rewrite arctan2_sin_cos by lra. field. }
  rewrite Hangle. cbn [firstn map].
  unfold as_rotvec_scale. rewrite Rleb_false by lra.
  replace ((2 * PI - n) / 2) with (PI - n / 2) by field.
  rewrite sin_PI_x, Hk.
  f_equal. rows_eq ltac:(field; lra).
Qed.

Lemma X11_long_rotvec_roundtrip_witness :
  PI < norm [PI + 1; 0; 0] < 2 * PI - small_angle_threshold
  /\ exists r,
       from_rotvec (A1 [PI + 1; 0; 0]) = Ok r
       /\ as_rotvec r
          = A1 (map (fun x => - ((2 * PI - norm [PI + 1; 0; 0])
                                / norm [PI + 1; 0; 0]) * x)
                    [PI + 1; 0; 0]).
Proof.
  assert (H : PI < norm [PI + 1; 0; 0] < 2 * PI - small_angle_threshold).
  { pose proof PI_bounds. rewrite norm3.
    replace ((PI + 1) * (PI + 1) + 0 * 0 + 0 * 0) with ((PI + 1) * (PI + 1))
      by ring.
    rewrite sqrt_square by lra. unfold small_angle_threshold. lra. }
  split; [exact H | exact (X11_long_rotvec_roundtrip (PI + 1) 0 0 H)].
Defined.

(** ** Single-axis rotations across the codecs *)

(** The matrices of the half-angle quaternions about x, y and z are the
    elementary matrices of [_make_dcm_from_angle]. *)
Lemma as_dcm_row_half_angle (h u v : R) :
  u = 0 -> v = 0 ->
  as_dcm_row [sin h; u; v; cos h] = Rx (2 * h)
  /\ as_dcm_row [u; sin h; v; cos h] = Ry (2 * h)
  /\ as_dcm_row [u; v; sin h; cos h] = Rz (2 * h).
Proof.
  intros -> ->. unfold as_dcm_row, Rx, Ry, Rz. cbn.
  rewrite !sin_2a, !cos_2a.
  pose proof (sin2_cos2 h) as H. unfold Rsqr in H.
  set (s := sin h) in *. set (c := cos h) in *.
  repeat split;
    repeat (apply (f_equal2 (@cons (list R))); [| try reflexivity]);
    rows_eq ltac:(first [ring | (rewrite <- H; ring)]).
Qed.

Lemma as_dcm_row_axis (a u v : R) :
  u = 0 -> v = 0 ->
  as_dcm_row [sin (a / 2); u; v; cos (a / 2)] = Rx a
  /\ as_dcm_row [u; sin (a / 2); v; cos (a / 2)] = Ry a
  /\ as_dcm_row [u; v; sin (a / 2); cos (a / 2)] = Rz a.
Proof.
  intros Hu Hv. pose proof (as_dcm_row_half_angle (a / 2) u v Hu Hv) as H.
  replace (2 * (a / 2)) with a in H by field. exact H.
Qed.

Lemma norm_axis (a : R) :
  norm [a; 0; 0] = Rabs a /\ norm [0; a; 0] = Rabs a /\ norm [0; 0; a] = Rabs a.
Proof.
  rewrite !norm3.
  replace (a * a + 0 * 0 + 0 * 0) with (Rsqr a) by (unfold Rsqr; ring).
  replace (0 * 0 + a * a + 0 * 0) with (Rsqr a) by (unfold Rsqr; ring).
  replace (0 * 0 + 0 * 0 + a * a) with (Rsqr a) by (unfold Rsqr; ring).
  rewrite sqrt_Rsqr_abs. repeat split; reflexivity.
Qed.

Lemma rotvec_axis_components (a : R) :
  small_angle_threshold < Rabs a ->
  from_rotvec_scale (Rabs a) * a = sin (a / 2)
  /\ cos (Rabs a / 2) = cos (a / 2).
Proof.
  intros Ha. assert (Hthr : 0 < small_angle_threshold)
    by (unfold small_angle_threshold; lra).
  unfold from_rotvec_scale. rewrite Rleb_false by lra.
  destruct (Rle_dec 0 a) as [Hpos | Hneg].
  - rewrite Rabs_pos_eq in * by exact Hpos. split; [field; lra | reflexivity].
  - rewrite Rabs_left in * by lra.
    replace (- a / 2) with (- (a / 2)) by field.
    rewrite sin_neg, cos_neg. split; [field; lra | reflexivity].
Qed.

(** X12: a rotation vector along a coordinate axis, of length a in
    absolute value above 1e-3, has for matrix the elementary rotation matrix
    of angle a about that axis: [from_rotvec] followed by [as_dcm] agrees
    with [_make_dcm_from_angle]. *)
Theorem X12_axis_rotvec_matrix (a : R) :
  small_angle_threshold < Rabs a ->
  (exists r, from_rotvec (A1 [a; 0; 0]) = Ok r
             /\ Ok (as_dcm r) = (M <- _make_dcm_from_angle "x" a false ;; Ok (A2 3 M)))
  /\ (exists r, from_rotvec (A1 [0; a; 0]) = Ok r
                /\ Ok (as_dcm r) = (M <- _make_dcm_from_angle "y" a false ;; Ok (A2 3 M)))
  /\ (exists r, from_rotvec (A1 [0; 0; a]) = Ok r
                /\ Ok (as_dcm r) = (M <- _make_dcm_from_angle "z" a false ;; Ok (A2 3 M))).
Proof.
  intros Ha. destruct (rotvec_axis_components a Ha) as [Hs Hc].
  destruct (norm_axis a) as [Nx [Ny Nz]].
  assert (Ex : _make_dcm_from_angle "x" a false = Ok (Rx a)) by reflexivity.
  assert (Ey : _make_dcm_from_angle "y" a false = Ok (Ry a)) by reflexivity.
  assert (Ez : _make_dcm_from_angle "z" a false = Ok (Rz a)) by reflexivity.
  rewrite Ex, Ey, Ez. cbn [bind].
  repeat split; rewrite from_rotvec_single; eexists; (split; [reflexivity |]);
    unfold as_dcm; cbn [_single _quat map nth];
    rewrite from_rotvec_row_shape, ?Nx, ?Ny, ?Nz, Hs, Hc; do 2 f_equal;
    apply as_dcm_row_axis; ring.
Qed.

Lemma X12_axis_rotvec_matrix_witness :
  small_angle_threshold < Rabs 1
  /\ exists r, from_rotvec (A1 [1; 0; 0]) = Ok r
               /\ Ok (as_dcm r)
                  = (M <- _make_dcm_from_angle "x" 1 false ;; Ok (A2 3 M)).
Proof.
  assert (H : small_angle_threshold < Rabs 1).
  { rewrite Rabs_R1. unfold small_angle_threshold. lra. }
  split; [exact H | exact (proj1 (X12_axis_rotvec_matrix 1 H))].
Defined.

(** ** Elementary matrices and Euler sequences *)

Ltac mat_eq tac :=
  repeat (apply (f_equal2 (@cons (list R))); [| try reflexivity]);
  rows_eq tac.

Lemma make_dcm_from_angle_rotation (c : ascii) (a : R) (intrinsic : bool) :
  In c ["x"; "y"; "z"; "X"; "Y"; "Z"]%char ->
  exists M, _make_dcm_from_angle c a intrinsic = Ok M
            /\ is_3x3 M /\ rotation_matrix M.
Proof.
  intros H. simpl in H.
  pose proof (sin2_cos2 a) as Hsc. unfold Rsqr in Hsc.
  repeat (destruct H as [H | H];
          [subst c; destruct intrinsic; eexists; (split; [reflexivity |]);
           (split; [unfold is_3x3, transpose3; cbn; repeat eexists |]);
           unfold rotation_matrix, einsum_ij_jk_ik, transpose3, det3, eye3; cbn;
           (split; [mat_eq ltac:(first [ring | nra]) | nra]) |]).
  contradiction.
Qed.

(** X13: for each of the six axis letters and every angle,
    [_make_dcm_from_angle] returns a proper rotation matrix, transposed or
    not. *)
Theorem X13_elementary_rotation (c : ascii) (a : R) (intrinsic : bool) :
  In c ["x"; "y"; "z"; "X"; "Y"; "Z"]%char ->
  exists M, _make_dcm_from_angle c a intrinsic = Ok M /\ rotation_matrix M.
Proof.
  intros H. destruct (make_dcm_from_angle_rotation c a intrinsic H)
    as [M [E [_ Hrot]]].
  exists M. split; assumption.
Qed.

Lemma X13_elementary_rotation_witness :
  In "X"%char ["x"; "y"; "z"; "X"; "Y"; "Z"]%char
  /\ exists M, _make_dcm_from_angle "X" 1 true = Ok M /\ rotation_matrix M.
Proof.
  assert (H : In "X"%char ["x"; "y"; "z"; "X"; "Y"; "Z"]%char)
    by (simpl; tauto).
  split; [exact H | exact (X13_elementary_rotation "X" 1 true H)].
Defined.

(** X14: the flag [intrinsic] amounts to negating the angle, and the case
    of the letter plays no part: for every axis letter,
    [_make_dcm_from_angle c a True] is [_make_dcm_from_angle c (-a) False],
    and the uppercase letter gives what the lowercase letter gives. *)
Theorem X14_intrinsic_is_negated_angle (c : ascii) (a : R) :
  In c ["x"; "y"; "z"; "X"; "Y"; "Z"]%char ->
  _make_dcm_from_angle c a true = _make_dcm_from_angle c (- a) false
  /\ (forall i, _make_dcm_from_angle c a i = _make_dcm_from_angle (lower c) a i).
Proof.
  intros H. simpl in H.
  repeat (destruct H as [H | H];
          [subst c; split; [| intros i; reflexivity];
           unfold _make_dcm_from_angle, transpose3; cbn;
           rewrite sin_neg, cos_neg; f_equal; mat_eq ltac:(ring) |]).
  contradiction.
Qed.

Lemma X14_intrinsic_is_negated_angle_witness :
  In "y"%char ["x"; "y"; "z"; "X"; "Y"; "Z"]%char
  /\ _make_dcm_from_angle "y" 1 true = _make_dcm_from_angle "y" (- 1) false.
Proof.
  assert (H : In "y"%char ["x"; "y"; "z"; "X"; "Y"; "Z"]%char)
    by (simpl; tauto).
  split; [exact H | exact (proj1 (X14_intrinsic_is_negated_angle "y" 1 H))].
Defined.

Lemma in_class_In (cls : list ascii) (c : ascii) :
  in_class cls c = true -> In c cls.
Proof.
  unfold in_class. intros H. apply existsb_exists in H.
  destruct H as [c' [Hin Heq]]. apply Ascii.eqb_eq in Heq. subst. exact Hin.
Qed.

Lemma take_class_inv (cls : list ascii) (k : nat) (s rest : list ascii) :
  take_class cls k s = Some rest ->
  exists body, s = body ++ rest /\ length body = k
               /\ Forall (fun c => In c cls) body.
Proof.
  revert s. induction k as [| k IH]; intros s H; simpl in H.
  - injection H as <-. exists []. repeat split. constructor.
  - destruct s as [| c s]; [discriminate |].
    destruct (in_class cls c) eqn:Hc; [| discriminate].
    destruct (IH s H) as [body [-> [Hl Hall]]].
    exists (c :: body). repeat split.
    + simpl. rewrite Hl. reflexivity.
    + constructor; [apply in_class_In; exact Hc | exact Hall].
Qed.

(** What a match of [^[...]{1,3}$] says about the subject: one to three
    characters of the class, then the end or a single final newline. *)
Lemma re_match_class_inv (cls : list ascii) (s : string) :
  re_match [Re_bol; Re_class cls 1 3; Re_eol] s = true ->
  exists body rest,
    list_ascii_of_string s = body ++ rest
    /\ (1 <= length body <= 3)%nat
    /\ Forall (fun c => In c cls) body
    /\ (rest = [] \/ rest = [newline]).
Proof.
  unfold re_match. cbn [match_items Nat.eqb andb Nat.add Nat.sub seq rev app].
  intros H. apply existsb_exists in H. destruct H as [k [Hk H]].
  destruct (take_class cls k (list_ascii_of_string s)) as [rest |] eqn:Et;
    [| discriminate].
  destruct (take_class_inv cls k _ rest Et) as [body [E [Hl Hall]]].
  exists body, rest. split; [exact E |]. split.
  - simpl in Hk. lia.
  - split; [exact Hall |].
    rewrite andb_true_r in H. unfold at_eol in H.
    destruct rest as [| c [| ? ?]]; try discriminate; [left; reflexivity |].
    apply Ascii.eqb_eq in H. subst. right. reflexivity.
Qed.

Lemma for_each_ok_all {A S : Type} (body : S -> A -> result S) (xs : list A)
      (acc r : S) :
  for_each body xs acc = Ok r ->
  Forall (fun x => exists a a', body a x = Ok a') xs.
Proof.
  revert acc. induction xs as [| x xs IH]; intros acc H; [constructor |].
  simpl in H. destruct (body acc x) as [acc' |] eqn:E; [| discriminate].
  constructor; [eauto | exact (IH acc' H)].
Qed.

Lemma in_combine_seq {A : Type} (l : list A) (start : nat) (c : A) :
  In c l -> exists i, In (i, c) (combine (seq start (length l)) l).
Proof.
  revert start. induction l as [| x l IH]; intros start Hin; [destruct Hin |].
  destruct Hin as [-> | Hin]; simpl.
  - exists start. left. reflexivity.
  - destruct (IH (S start) Hin) as [i Hi]. exists i. right. exact Hi.
Qed.

Lemma length_list_ascii_of_string (s : string) :
  length (list_ascii_of_string s) = String.length s.
Proof. induction s as [| c s IH]; simpl; [reflexivity | rewrite IH; reflexivity]. Qed.

(** When the loop of [_make_dcm_from_euler] ends without raising, no
    character of the sequence is a newline. *)
Lemma euler_loop_ok_no_newline (s : string) (angle : list R) (flag : bool)
      (step : list (list R) -> list (list R) -> list (list R))
      (acc r : list (list R)) :
  for_each (fun dcm (ic : nat * ascii) =>
              let (ind, char) := ic in
              m <- _make_dcm_from_angle char (idx angle ind) flag ;;
              Ok (step dcm m))
           (enumerate_str s) acc = Ok r ->
  ~ In newline (list_ascii_of_string s).
Proof.
  intros H Hin. apply for_each_ok_all in H. rewrite Forall_forall in H.
  destruct (in_combine_seq _ 0%nat newline Hin) as [i Hi].
  destruct (H (i, newline) Hi) as [a [a' E]].
  destruct flag; discriminate.
Qed.

Lemma axis_letters_of_match (cls : list ascii) (s : string) :
  re_match [Re_bol; Re_class cls 1 3; Re_eol] s = true ->
  ~ In newline (list_ascii_of_string s) ->
  axis_letters cls s.
Proof.
  intros Hm Hnl. destruct (re_match_class_inv cls s Hm)
    as [body [rest [E [Hlen [Hall [-> | ->]]]]]].
  - rewrite app_nil_r in E. unfold axis_letters.
    rewrite <- length_list_ascii_of_string, E. split; assumption.
  - elim Hnl. rewrite E. apply in_or_app. right. left. reflexivity.
Qed.

Lemma make_dcm_from_euler_ok_valid (s : string) (angle : list R)
      (M : list (list R)) :
  _make_dcm_from_euler s angle = Ok M -> valid_sequence s.
Proof.
  intros H. unfold _make_dcm_from_euler in H.
  destruct (negb (String.length s =? length angle)%nat); [discriminate |].
  destruct (re_match extrinsic_re s) eqn:Ee.
  - cbn [negb andb] in H. left.
    apply axis_letters_of_match; [exact Ee |].
    exact (euler_loop_ok_no_newline s angle false
             (fun dcm m => einsum_ij_jk_ik m dcm) eye3 M H).
  - destruct (re_match intrinsic_re s) eqn:Ei; [| discriminate].
    cbn [negb andb] in H. right.
    apply axis_letters_of_match; [exact Ei |].
    exact (euler_loop_ok_no_newline s angle true
             (fun dcm m => einsum_ij_ik_ik dcm m) eye3 M H).
Qed.

(** X15: [_make_dcm_from_euler] returns a matrix exactly when the sequence
    is made of one to three axis letters, all lowercase or all uppercase,
    and there are as many angles as letters. *)
Theorem X15_make_dcm_from_euler_succeeds_iff (s : string) (angle : list R) :
  (exists M, _make_dcm_from_euler s angle = Ok M)
  <-> valid_sequence s /\ String.length s = length angle.
Proof.
  split.
  - intros [M H]. split.
    + exact (make_dcm_from_euler_ok_valid s angle M H).
    + exact (make_dcm_from_euler_ok_length s angle M H).
  - intros [Hv Hl]. destruct (make_dcm_from_euler_valid s angle Hv Hl) as [M [E _]].
    exists M. exact E.
Qed.

Lemma re_match_class_chars (cls : list ascii) (s : string) :
  re_match [Re_bol; Re_class cls 1 3; Re_eol] s = true ->
  (1 <= String.length s <= 4)%nat
  /\ Forall (fun c => In c cls \/ c = newline) (list_ascii_of_string s).
Proof.
  intros Hm. destruct (re_match_class_inv cls s Hm)
    as [body [rest [E [Hlen [Hall Hrest]]]]].
  rewrite <- length_list_ascii_of_string, E, length_app. split.
  - destruct Hrest as [-> | ->]; simpl; lia.
  - apply Forall_app. split.
    + eapply Forall_impl; [| exact Hall]. intros c Hc. left. exact Hc.
    + destruct Hrest as [-> | ->]; [constructor |].
      constructor; [right; reflexivity | constructor].
Qed.

Lemma for_each_raise_inv {A S : Type} (body : S -> A -> result S) (xs : list A)
      (acc : S) (e : exn) :
  for_each body xs acc = Raise e -> exists a x, body a x = Raise e.
Proof.
  revert acc. induction xs as [| x xs IH]; intros acc H; [discriminate |].
  simpl in H. destruct (body acc x) as [acc' | e'] eqn:E.
  - exact (IH acc' H).
  - simpl in H. injection H as ->. eauto.
Qed.

(** X16: the errors of [_make_dcm_from_euler].  The count of angles is
    checked first: the axes/angles error is raised exactly when the
    sequence and the angles differ in length.  With equal lengths, a
    sequence holding both a lowercase and an uppercase axis letter, an
    empty sequence or one of more than four characters raises the
    mixed-sequence error. *)
Theorem X16_make_dcm_from_euler_errors (s : string) (angle : list R) :
  (_make_dcm_from_euler s angle = Raise ValueError_axes_angles
   <-> String.length s <> length angle)
  /\ (String.length s = length angle ->
      (exists l u, In l ["x"; "y"; "z"]%char /\ In u ["X"; "Y"; "Z"]%char
                   /\ In l (list_ascii_of_string s)
                   /\ In u (list_ascii_of_string s))
      \/ String.length s = 0%nat \/ (4 < String.length s)%nat ->
      _make_dcm_from_euler s angle = Raise ValueError_mixed_sequence).
Proof.
  split.
  - unfold _make_dcm_from_euler.
    destruct (Nat.eqb_spec (String.length s) (length angle)) as [E | E];
      cbn [negb]; split; try congruence; try reflexivity.
    intros H. exfalso.
    destruct (negb (re_match extrinsic_re s) && negb (re_match intrinsic_re s));
      [discriminate |].
    destruct (re_match extrinsic_re s).
    + destruct (for_each _ _ _) eqn:Ef; [discriminate |].
      apply for_each_raise_inv in Ef. destruct Ef as [a [[ind c] Ec]].
      cbn in Ec. destruct (_make_dcm_from_angle c (idx angle ind) false) eqn:Em;
        cbn in Ec; [discriminate |].
      injection Ec as ->. injection H as ->.
      unfold _make_dcm_from_angle in Em.
      repeat destruct (Ascii.eqb _ _); cbn in Em; discriminate.
    + destruct (re_match intrinsic_re s); [| discriminate].
      destruct (for_each _ _ _) eqn:Ef; [discriminate |].
      apply for_each_raise_inv in Ef. destruct Ef as [a [[ind c] Ec]].
      cbn in Ec. destruct (_make_dcm_from_angle c (idx angle ind) true) eqn:Em;
        cbn in Ec; [discriminate |].
      injection Ec as ->. injection H as ->.
      unfold _make_dcm_from_angle in Em.
      repeat destruct (Ascii.eqb _ _); cbn in Em; discriminate.
  - intros Hl Hbad. unfold _make_dcm_from_euler.
    rewrite Hl, Nat.eqb_refl. cbn [negb].
    assert (He : re_match extrinsic_re s = false).
    { destruct (re_match extrinsic_re s) eqn:E; [| reflexivity]. exfalso.
      destruct (re_match_class_chars _ s E) as [Hlen Hall].
      rewrite Forall_forall in Hall.
      destruct Hbad as [[l [u [_ [Hu [_ Hin]]]]] | [H0 | H4]]; try lia.
      destruct (Hall u Hin) as [H | H]; simpl in Hu, H;
        repeat (destruct Hu as [Hu | Hu]; [subst u; intuition discriminate |]);
        contradiction. }
    assert (Hi : re_match intrinsic_re s = false).
    { destruct (re_match intrinsic_re s) eqn:E; [| reflexivity]. exfalso.
      destruct (re_match_class_chars _ s E) as [Hlen Hall].
      rewrite Forall_forall in Hall.
      destruct Hbad as [[l [u [Hl' [_ [Hin _]]]]] | [H0 | H4]]; try lia.
      destruct (Hall l Hin) as [H | H]; simpl in Hl', H;
        repeat (destruct Hl' as [Hl' | Hl']; [subst l; intuition discriminate |]);
        contradiction. }
    rewrite He, Hi. reflexivity.
Qed.

Lemma X16_make_dcm_from_euler_errors_witness :
  String.length "xY" = length [0; 0]
  /\ _make_dcm_from_euler "xY" [0; 0] = Raise ValueError_mixed_sequence.
Proof.
  assert (H : String.length "xY" = length [0; 0]) by reflexivity.
  split; [exact H |].
  apply (proj2 (X16_make_dcm_from_euler_errors "xY" [0; 0]) H).
  left. exists "x"%char, "Y"%char. simpl. tauto.
Defined.

(** *** Products of 3 x 3 matrices *)

Ltac destruct_3x3 H :=
  destruct H as [?a [?b [?c [?d [?e [?f [?g [?h [?i ->]]]]]]]]].

Lemma is_3x3_mul (A B : list (list R)) :
  is_3x3 A -> is_3x3 B -> is_3x3 (einsum_ij_jk_ik A B).
Proof.
  intros HA HB. destruct_3x3 HA. destruct_3x3 HB.
  unfold einsum_ij_jk_ik. cbn. unfold is_3x3. repeat eexists.
Qed.

Lemma is_3x3_transpose (A : list (list R)) : is_3x3 A -> is_3x3 (transpose3 A).
Proof.
  intros HA. destruct_3x3 HA. unfold transpose3. cbn. unfold is_3x3.
  repeat eexists.
Qed.

Lemma mul_assoc_3x3 (A B C : list (list R)) :
  is_3x3 A -> is_3x3 B -> is_3x3 C ->
  einsum_ij_jk_ik (einsum_ij_jk_ik A B) C
  = einsum_ij_jk_ik A (einsum_ij_jk_ik B C).
Proof.
  intros HA HB HC. destruct_3x3 HA. destruct_3x3 HB. destruct_3x3 HC.
  unfold einsum_ij_jk_ik. cbn. mat_eq ltac:(ring).
Qed.

Lemma transpose_mul_3x3 (A B : list (list R)) :
  is_3x3 A -> is_3x3 B ->
  transpose3 (einsum_ij_jk_ik A B)
  = einsum_ij_jk_ik (transpose3 B) (transpose3 A).
Proof.
  intros HA HB. destruct_3x3 HA. destruct_3x3 HB.
  unfold einsum_ij_jk_ik, transpose3. cbn. mat_eq ltac:(ring).
Qed.

Lemma mul_eye_l (A : list (list R)) : is_3x3 A -> einsum_ij_jk_ik eye3 A = A.
Proof.
  intros HA. destruct_3x3 HA. unfold einsum_ij_jk_ik, eye3. cbn.
  mat_eq ltac:(ring).
Qed.

Lemma mul_eye_r (A : list (list R)) : is_3x3 A -> einsum_ij_jk_ik A eye3 = A.
Proof.
  intros HA. destruct_3x3 HA. unfold einsum_ij_jk_ik, eye3. cbn.
  mat_eq ltac:(ring).
Qed.

Lemma det_mul_3x3 (A B : list (list R)) :
  is_3x3 A -> is_3x3 B ->
  det3 (einsum_ij_jk_ik A B) = det3 A * det3 B.
Proof.
  intros HA HB. destruct_3x3 HA. destruct_3x3 HB.
  unfold einsum_ij_jk_ik, det3. cbn. ring.
Qed.

(** The product of two proper rotation matrices is one. *)
Lemma rotation_matrix_mul (A B : list (list R)) :
  is_3x3 A -> is_3x3 B -> rotation_matrix A -> rotation_matrix B ->
  rotation_matrix (einsum_ij_jk_ik A B).
Proof.
  intros HA HB [OA DA] [OB DB]. split.
  - rewrite transpose_mul_3x3 by assumption.
    rewrite mul_assoc_3x3;
      [| apply is_3x3_transpose; assumption
       | apply is_3x3_transpose; assumption
       | apply is_3x3_mul; assumption].
    rewrite <- (mul_assoc_3x3 (transpose3 A) A B);
      [| apply is_3x3_transpose; assumption | assumption | assumption].
    rewrite OA, mul_eye_l by assumption. exact OB.
  - rewrite det_mul_3x3 by assumption. rewrite DA, DB. ring.
Qed.

Lemma rotation_matrix_eye3 : is_3x3 eye3 /\ rotation_matrix eye3.
Proof.
  split; [unfold is_3x3, eye3; repeat eexists |].
  unfold rotation_matrix, einsum_ij_jk_ik, transpose3, det3, eye3. cbn.
  split; [mat_eq ltac:(ring) | ring].
Qed.

(** X17: a valid extrinsic (lowercase) sequence composes to a proper
    rotation matrix: orthogonal, of determinant 1. *)
Theorem X17_extrinsic_euler_rotation_matrix (s : string) (angle : list R) :
  axis_letters ["x"; "y"; "z"]%char s -> String.length s = length angle ->
  exists M, _make_dcm_from_euler s angle = Ok M
            /\ is_3x3 M /\ rotation_matrix M.
Proof.
  intros Hv Hlen. unfold _make_dcm_from_euler.
  rewrite Hlen, Nat.eqb_refl, (re_match_lowercase s Hv). cbn [negb andb].
  assert (Hall : Forall (fun ic : nat * ascii =>
                           In (snd ic) ["x"; "y"; "z"; "X"; "Y"; "Z"]%char)
                        (enumerate_str s)).
  { unfold enumerate_str.
    apply (Forall_combine_r (fun c => In c ["x"; "y"; "z"; "X"; "Y"; "Z"]%char)).
    destruct Hv as [_ H]. eapply Forall_In_weaken; [| exact H].
    intros c Hc. simpl in *. tauto. }
  apply (for_each_invariant (fun M => is_3x3 M /\ rotation_matrix M)
           (fun ic => In (snd ic) ["x"; "y"; "z"; "X"; "Y"; "Z"]%char));
    [| exact Hall | exact rotation_matrix_eye3].
  intros acc [ind c] [H3 Hrot] Hc.
  destruct (make_dcm_from_angle_rotation c (idx angle ind) false Hc)
    as [M [E [HM3 HMrot]]].
  rewrite E. cbn [bind]. eexists. split; [reflexivity |]. split.
  - apply is_3x3_mul; assumption.
  - apply rotation_matrix_mul; assumption.
Qed.

Lemma axis_letters_xy : axis_letters ["x"; "y"; "z"]%char "xy".
Proof. split; [simpl; lia |]. repeat constructor; simpl; tauto. Qed.

Lemma X17_extrinsic_euler_rotation_matrix_witness :
  axis_letters ["x"; "y"; "z"]%char "xy"
  /\ String.length "xy" = length [1; 2]
  /\ exists M, _make_dcm_from_euler "xy" [1; 2] = Ok M
               /\ is_3x3 M /\ rotation_matrix M.
Proof.
  split; [exact axis_letters_xy |]. split; [reflexivity |].
  exact (X17_extrinsic_euler_rotation_matrix "xy" [1; 2] axis_letters_xy eq_refl).
Defined.

(** X18: an extrinsic sequence of three axes composes by
    pre-multiplication in the order of the letters: the matrix of "abc" with
    angles (a1, a2, a3) is R_c(a3) (R_b(a2) R_a(a1)), the first letter being
    applied first. *)
Theorem X18_extrinsic_composition_order (c1 c2 c3 : ascii) (a1 a2 a3 : R) :
  In c1 ["x"; "y"; "z"]%char -> In c2 ["x"; "y"; "z"]%char ->
  In c3 ["x"; "y"; "z"]%char ->
  exists M1 M2 M3,
    _make_dcm_from_angle c1 a1 false = Ok M1
    /\ _make_dcm_from_angle c2 a2 false = Ok M2
    /\ _make_dcm_from_angle c3 a3 false = Ok M3
    /\ _make_dcm_from_euler (String c1 (String c2 (String c3 EmptyString)))
                            [a1; a2; a3]
       = Ok (einsum_ij_jk_ik M3 (einsum_ij_jk_ik M2 M1)).
Proof.
  intros H1 H2 H3.
  assert (Hw : forall c, In c ["x"; "y"; "z"]%char ->
                         In c ["x"; "y"; "z"; "X"; "Y"; "Z"]%char)
    by (intros c Hc; simpl in *; tauto).
  destruct (make_dcm_from_angle_rotation c1 a1 false (Hw c1 H1)) as [M1 [E1 [T1 _]]].
  destruct (make_dcm_from_angle_rotation c2 a2 false (Hw c2 H2)) as [M2 [E2 _]].
  destruct (make_dcm_from_angle_rotation c3 a3 false (Hw c3 H3)) as [M3 [E3 _]].
  exists M1, M2, M3. repeat (split; [assumption |]).
  unfold _make_dcm_from_euler.
  rewrite re_match_lowercase
    by (split; [simpl; lia
               | simpl; repeat (apply Forall_cons; [assumption |]);
                 apply Forall_nil]).
  cbn [String.length length Nat.eqb negb andb enumerate_str
       list_ascii_of_string seq combine for_each idx nth].
  rewrite E1. cbn [bind]. rewrite E2. cbn [bind]. rewrite E3. cbn [bind].
  rewrite (mul_eye_r M1 T1). reflexivity.
Qed.

Lemma X18_extrinsic_composition_order_witness :
  In "z"%char ["x"; "y"; "z"]%char
  /\ exists M1 M2 M3,
       _make_dcm_from_angle "z" 1 false = Ok M1
       /\ _make_dcm_from_angle "y" 2 false = Ok M2
       /\ _make_dcm_from_angle "x" 3 false = Ok M3
       /\ _make_dcm_from_euler "zyx" [1; 2; 3]
          = Ok (einsum_ij_jk_ik M3 (einsum_ij_jk_ik M2 M1)).
Proof.
  assert (Hz : In "z"%char ["x"; "y"; "z"]%char) by (simpl; tauto).
  assert (Hy : In "y"%char ["x"; "y"; "z"]%char) by (simpl; tauto).
  assert (Hx : In "x"%char ["x"; "y"; "z"]%char) by (simpl; tauto).
  split; [exact Hz |].
  exact (X18_extrinsic_composition_order "z" "y" "x" 1 2 3 Hz Hy Hx).
Defined.

(** The matrix of a one-letter sequence is the matrix of a half-angle
    quaternion: of the angle for a lowercase letter, of the opposite angle
    for an uppercase one. *)
Lemma euler_single_axis_matrix (c : ascii) (a : R) :
  In c ["x"; "y"; "z"; "X"; "Y"; "Z"]%char ->
  let a' := if in_class ["x"; "y"; "z"]%char c then a else - a in
  _make_dcm_from_euler (String c EmptyString) [a]
  = Ok (as_dcm_row (axis_quat (lower c) a')).
Proof.
  intros H. simpl in H.
  repeat (destruct H as [H | H];
          [subst c; cbn [in_class existsb Ascii.eqb Bool.eqb orb lower];
           destruct (as_dcm_row_axis a 0 0 eq_refl eq_refl) as [Ex [Ey Ez]];
           destruct (as_dcm_row_axis (- a) 0 0 eq_refl eq_refl) as [Ex' [Ey' Ez']];
           unfold axis_quat; cbn -[as_dcm_row];
           rewrite ?Ex, ?Ey, ?Ez, ?Ex', ?Ey', ?Ez';
           eval_euler; rewrite ?sin_neg, ?cos_neg; f_equal; mat_eq ltac:(ring) |]).
  contradiction.
Qed.

Lemma unit_axis_quat (axis : ascii) (a : R) : unit_quat (axis_quat axis a).
Proof.
  pose proof (sin2_cos2 (a / 2)) as H. unfold Rsqr in H.
  unfold axis_quat.
  destruct (Ascii.eqb axis "x"); [| destruct (Ascii.eqb axis "y")];
    (split; [reflexivity | unfold Rsum; simpl; lra]).
Qed.

(** X19: [from_euler] on a single axis letter and one angle a (radians)
    stores the half-angle quaternion of that axis, up to sign: of the angle
    a for a lowercase letter, of the angle -a for an uppercase letter. *)
Theorem X19_from_euler_single_axis (c : ascii) (a : R) :
  In c ["x"; "y"; "z"; "X"; "Y"; "Z"]%char ->
  let q := axis_quat (lower c)
                     (if in_class ["x"; "y"; "z"]%char c then a else - a) in
  exists q',
    from_euler (Seq_str (String c EmptyString)) (A1 [a]) false
    = Ok (mkRotation true [q'])
    /\ (q' = q \/ q' = map Ropp q).
Proof.
  intros H q.
  assert (Hv : valid_sequence (String c EmptyString)).
  { simpl in H.
    destruct H as [H | [H | [H | H]]];
      [left | left | left | right]; (split; [simpl; lia |]);
      simpl; (apply Forall_cons; [simpl; tauto | apply Forall_nil]). }
  destruct (from_euler_str_valid _ [a] false Hv eq_refl) as [M [EM E]].
  cbv iota in EM. rewrite (euler_single_axis_matrix c a H) in EM.
  injection EM as <-. fold q in E. rewrite E.
  eexists. split; [reflexivity |].
  exact (dcm_roundtrip_row q (unit_axis_quat _ _)).
Qed.

Lemma X19_from_euler_single_axis_witness :
  In "Z"%char ["x"; "y"; "z"; "X"; "Y"; "Z"]%char
  /\ exists q',
       from_euler (Seq_str "Z") (A1 [1]) false = Ok (mkRotation true [q'])
       /\ (q' = axis_quat "z" (- 1) \/ q' = map Ropp (axis_quat "z" (- 1))).
Proof.
  assert (H : In "Z"%char ["x"; "y"; "z"; "X"; "Y"; "Z"]%char)
    by (simpl; tauto).
  split; [exact H | exact (X19_from_euler_single_axis "Z" 1 H)].
Defined.

Lemma einsum_ij_ik_ik_scale_rows (A B : list (list R)) :
  is_3x3 A -> is_3x3 B -> einsum_ij_ik_ik A B = scale_rows A B.
Proof.
  intros HA HB. destruct_3x3 HA. destruct_3x3 HB.
  unfold einsum_ij_ik_ik, scale_rows, Rsum. cbn. mat_eq ltac:(ring).
Qed.

Lemma scale_rows_eye_l (B : list (list R)) : is_3x3 B -> scale_rows eye3 B = B.
Proof.
  intros HB. destruct_3x3 HB. unfold scale_rows, eye3, Rsum. cbn.
  mat_eq ltac:(ring).
Qed.

(** X20: an intrinsic sequence of two axes does not compose by matrix
    product.  With M1 and M2 the transposed elementary matrices of the two
    letters, row i of the result is row i of M2 scaled by the sum of row i
    of M1; on "XY" with angles (a, 0) the result has determinant
    cos (2 a). *)
Theorem X20_intrinsic_two_axes (c1 c2 : ascii) (a1 a2 : R) :
  In c1 ["X"; "Y"; "Z"]%char -> In c2 ["X"; "Y"; "Z"]%char ->
  (exists M1 M2,
      _make_dcm_from_angle c1 a1 true = Ok M1
      /\ _make_dcm_from_angle c2 a2 true = Ok M2
      /\ _make_dcm_from_euler (String c1 (String c2 EmptyString)) [a1; a2]
         = Ok (scale_rows M1 M2))
  /\ (exists M, _make_dcm_from_euler "XY" [a1; 0] = Ok M
                /\ det3 M = cos (2 * a1)).
Proof.
  intros H1 H2. split.
  - assert (Hw : forall c, In c ["X"; "Y"; "Z"]%char ->
                           In c ["x"; "y"; "z"; "X"; "Y"; "Z"]%char)
      by (intros c Hc; simpl in *; tauto).
    destruct (make_dcm_from_angle_rotation c1 a1 true (Hw c1 H1))
      as [M1 [E1 [T1 _]]].
    destruct (make_dcm_from_angle_rotation c2 a2 true (Hw c2 H2))
      as [M2 [E2 [T2 _]]].
    exists M1, M2. repeat (split; [assumption |]).
    unfold _make_dcm_from_euler.
    destruct (re_match_uppercase (String c1 (String c2 EmptyString)))
      as [Ee Ei];
      [split; [simpl; lia
              | simpl; repeat (apply Forall_cons; [assumption |]);
                apply Forall_nil] |].
    rewrite Ee, Ei.
    cbn [String.length length Nat.eqb negb andb enumerate_str
         list_ascii_of_string seq combine for_each idx nth].
    rewrite E1. cbn [bind]. rewrite E2. cbn [bind].
    rewrite (einsum_ij_ik_ik_scale_rows eye3 M1 (proj1 rotation_matrix_eye3) T1).
    rewrite (scale_rows_eye_l M1 T1).
    rewrite (einsum_ij_ik_ik_scale_rows M1 M2 T1 T2). reflexivity.
  - eexists. split.
    + eval_euler. rewrite sin_0, cos_0. reflexivity.
    + unfold det3. cbn. rewrite cos_2a. ring.
Qed.

Lemma X20_intrinsic_two_axes_witness :
  In "X"%char ["X"; "Y"; "Z"]%char /\ In "Y"%char ["X"; "Y"; "Z"]%char
  /\ exists M, _make_dcm_from_euler "XY" [PI / 4; 0] = Ok M
               /\ det3 M = cos (2 * (PI / 4)).
Proof.
  assert (H1 : In "X"%char ["X"; "Y"; "Z"]%char) by (simpl; tauto).
  assert (H2 : In "Y"%char ["X"; "Y"; "Z"]%char) by (simpl; tauto).
  split; [exact H1 |]. split; [exact H2 |].
  exact (proj2 (X20_intrinsic_two_axes "X" "Y" (PI / 4) 0 H1 H2)).
Defined.

(** ** What every constructor leaves in the store, and the output shapes *)

Lemma from_dcm_rows_unit (Ms : list (list (list R))) :
  Forall unit_quat (from_dcm_rows Ms).
Proof.
  unfold from_dcm_rows. rewrite map_map. apply Forall_map.
  rewrite Forall_forall. intros M _.
  pose proof (from_dcm_row_norm_ge_1 M) as Hge.
  apply unit_quat_of_norm.
  - rewrite length_row_div. apply length_from_dcm_row.
  - apply norm_row_div. lra.
Qed.

Lemma from_dcm_ok_inv (dcm : ndarray) (r : Rotation) :
  from_dcm dcm = Ok r -> _quat r = from_dcm_rows (mats_of dcm).
Proof.
  intros H. destruct (dcm_shape_bad dcm) eqn:Hbad.
  - unfold from_dcm in H. rewrite Hbad in H. discriminate.
  - rewrite (from_dcm_ok dcm Hbad) in H. injection H as <-. reflexivity.
Qed.

(** X21: every rotation [from_euler] returns, for a single sequence or an
    array of sequences, in radians or degrees, stores unit quaternions
    only. *)
Theorem X21_from_euler_unit_rows (seq : seq_arg) (angle_mat : ndarray)
        (deg : bool) (r : Rotation) :
  from_euler seq angle_mat deg = Ok r -> Forall unit_quat (_quat r).
Proof.
  intros H.
  assert (Hd : exists dcm, from_dcm dcm = Ok r).
  { unfold from_euler in H. destruct seq as [s | seqs].
    - apply bind_ok_inv in H. destruct H as [n0 [_ H]].
      destruct (negb (String.length s =? n0)%nat || negb (ndim _ =? 1)%nat);
        [discriminate |].
      apply bind_ok_inv in H. destruct H as [dcm [_ H]]. eauto.
    - apply bind_ok_inv in H. destruct H as [n0 [_ H]].
      destruct (negb (length seqs =? n0)%nat); [discriminate |].
      match type of H with
      | (if ?b then _ else _) = _ => destruct b; [discriminate |]
      end.
      apply bind_ok_inv in H. destruct H as [dcms [_ H]]. eauto. }
  destruct Hd as [dcm Hd]. rewrite (from_dcm_ok_inv dcm r Hd).
  apply from_dcm_rows_unit.
Qed.

Lemma X21_from_euler_unit_rows_witness :
  exists r, from_euler (Seq_str "xyz") (A1 [90; 0; 0]) true = Ok r
            /\ Forall unit_quat (_quat r).
Proof.
  assert (Hv : valid_sequence "xyz").
  { left. split; [simpl; lia |]. simpl.
    repeat (apply Forall_cons; [simpl; tauto |]). apply Forall_nil. }
  destruct (from_euler_str_valid "xyz" [90; 0; 0] true Hv eq_refl) as [M [_ E]].
  eexists. split; [exact E |].
  exact (X21_from_euler_unit_rows _ _ _ _ E).
Defined.

Lemma length_flip_row (q : list R) : length (flip_row q) = length q.
Proof. unfold flip_row. destruct (Rltb _ _); [apply length_map | reflexivity]. Qed.

Lemma length_as_rotvec_row (q : list R) :
  length q = 4%nat -> length (as_rotvec_row q) = 3%nat.
Proof.
  intros H. unfold as_rotvec_row. rewrite length_map, length_firstn, length_flip_row, H.
  reflexivity.
Qed.

Lemma is_3x3_as_dcm_row (q : list R) : is_3x3 (as_dcm_row q).
Proof. unfold as_dcm_row, is_3x3. repeat eexists. Qed.

(** X22: the accessors follow the shape of the constructor's input.  For a
    rotation built from an input of shape (4,), [as_quaternion], [as_dcm]
    and [as_rotvec] return arrays of shape (4,), (3, 3) and (3,); for an
    input of shape (N, 4) they return shapes (N, 4), (N, 3, 3) and (N, 3),
    also when N is 1 or 0; the arrays returned are well formed. *)
Theorem X22_accessor_shapes (quat : ndarray) (normalized : bool) (r : Rotation) :
  wf_ndarray quat ->
  Rotation_init quat normalized = Ok r ->
  shape (as_quaternion r) = shape quat
  /\ shape (as_dcm r) = removelast (shape quat) ++ [3; 3]%nat
  /\ shape (as_rotvec r) = removelast (shape quat) ++ [3%nat]
  /\ wf_ndarray (as_quaternion r) /\ wf_ndarray (as_dcm r)
  /\ wf_ndarray (as_rotvec r).
Proof.
  intros Hwf H.
  assert (Hr : quat_shape_bad quat = false
               /\ exists f : list R -> list R,
                    (forall row, length (f row) = length row)
                    /\ r = mkRotation (nat_list_eqb (shape quat) [4%nat])
                                      (map f (rows_of quat))).
  { destruct normalized.
    - unfold Rotation_init in H. destruct (quat_shape_bad quat); [discriminate |].
      split; [reflexivity |]. exists (fun row => row). split; [reflexivity |].
      injection H as <-. rewrite map_id. reflexivity.
    - destruct (Rotation_init_false_inv quat r H) as [Hb [_ ->]].
      split; [exact Hb |]. exists (fun row => row_div row (norm row)).
      split; [intros row; apply length_row_div | reflexivity]. }
  destruct Hr as [Hbad [f [Hf ->]]].
  pose proof (wf_rows_length4 quat Hwf Hbad) as Hlen.
  unfold quat_shape_bad, shape_last in Hbad.
  destruct quat as [x | v | n1 m | n1 n2 t]; cbn in Hbad; try discriminate.
  - destruct (Nat.eqb_spec (length v) 4) as [E | E]; [| discriminate].
    cbn [shape rows_of map]. rewrite E, nat_list_eqb_refl.
    unfold as_quaternion, as_dcm, as_rotvec.
    cbn [_single _quat map nth shape removelast app wf_ndarray].
    rewrite Hf, E, length_as_rotvec_row by (rewrite Hf; exact E).
    repeat split; try reflexivity.
    destruct (is_3x3_as_dcm_row (f v))
      as [a [b [c [d [e [f' [g [h [i ->]]]]]]]]].
    repeat constructor.
  - destruct (Nat.eqb_spec n1 4) as [E | E]; [| discriminate]. subst n1.
    cbn [shape rows_of]. rewrite nat_list_eqb_length by (simpl; lia).
    unfold as_quaternion, as_dcm, as_rotvec.
    cbn [_single _quat shape removelast app wf_ndarray rows_of] in *.
    rewrite !length_map.
    repeat split; try reflexivity.
    + apply Forall_map. eapply Forall_impl; [| exact Hlen].
      intros row Hrow. cbn beta. rewrite Hf. exact Hrow.
    + rewrite map_map. apply Forall_map. rewrite Forall_forall. intros row _.
      destruct (is_3x3_as_dcm_row (f row))
        as [a [b [c [d [e [f' [g [h [i ->]]]]]]]]].
      split; [reflexivity | repeat constructor].
    + rewrite map_map. apply Forall_map. eapply Forall_impl; [| exact Hlen].
      intros row Hrow. cbn beta. apply length_as_rotvec_row.
      rewrite Hf. exact Hrow.
Qed.

Lemma X22_accessor_shapes_witness :
  wf_ndarray (A2 4 [ [0; 0; 0; 1] ])
  /\ Rotation_init (A2 4 [ [0; 0; 0; 1] ]) true
     = Ok (mkRotation false [ [0; 0; 0; 1] ])
  /\ shape (as_dcm (mkRotation false [ [0; 0; 0; 1] ])) = [1; 3; 3]%nat
  /\ shape (as_rotvec (mkRotation false [ [0; 0; 0; 1] ])) = [1; 3]%nat.
Proof.
  assert (Hwf : wf_ndarray (A2 4 [ [0; 0; 0; 1] ])) by (repeat constructor).
  assert (H : Rotation_init (A2 4 [ [0; 0; 0; 1] ]) true
              = Ok (mkRotation false [ [0; 0; 0; 1] ])) by reflexivity.
  split; [exact Hwf |]. split; [exact H |].
  destruct (X22_accessor_shapes _ _ _ Hwf H) as [_ [Hd [Hr _]]].
  split; [exact Hd | exact Hr].
Defined.

(** ** Rotation vectors: the other round trip *)

(** X23: for a stored unit quaternion whose rotation angle exceeds 1e-3,
    [from_rotvec (as_rotvec ...)] gives back the quaternion in its
    canonical sign, that is with non-negative scalar part. *)
Theorem X23_rotvec_of_quaternion_roundtrip (q : list R) :
  unit_quat q ->
  small_angle_threshold < as_rotvec_angle (flip_row q) ->
  from_rotvec (as_rotvec (mkRotation true [q]))
  = Ok (mkRotation true [flip_row q])
  /\ 0 <= idx (flip_row q) 3.
Proof.
  intros Hq Hbig. destruct (unit_quat_inv q Hq) as [x [y [z [w [-> H]]]]].
  destruct (flip_row_unit x y z w H) as [x' [y' [z' [w' [Hflip [Hw' H']]]]]].
  rewrite Hflip in *. cbn [idx nth]. split; [| exact Hw'].
  destruct (as_rotvec_unit_nonneg x' y' z' w' Hw' H') as [Hrange [_ [Hexact _]]].
  specialize (Hexact Hbig).
  set (angle := as_rotvec_angle [x'; y'; z'; w']) in *.
  set (s := norm [x'; y'; z']).
  assert (Hs : 0 <= s) by apply norm_nonneg.
  assert (Hss : s * s + w' * w' = 1) by (unfold s; rewrite norm3_sq; lra).
  destruct (arctan2_unit_circle s w' Hs Hw' Hss) as [_ [Hsin Hcos]].
  assert (Hhalf : angle / 2 = arctan2 s w') by (unfold angle, as_rotvec_angle; cbn [firstn idx nth]; fold s; field).
  assert (Hthr : 0 < small_angle_threshold) by (unfold small_angle_threshold; lra).
  assert (Hspos : 0 < s).
  { rewrite <- Hsin, <- Hhalf. apply sin_gt_0; pose proof PI_bounds; lra. }
  unfold as_rotvec. cbn [_single _quat map nth].
  unfold as_rotvec_row. rewrite Hflip. fold angle. cbn [firstn map].
  rewrite from_rotvec_single. do 2 f_equal.
  cbn [firstn map] in Hexact.
  rewrite from_rotvec_row_shape, Hexact.
  unfold from_rotvec_scale, as_rotvec_scale.
  rewrite !Rleb_false by lra. rewrite Hhalf, Hsin, Hcos.
  f_equal. rows_eq ltac:(field; lra).
Qed.

Lemma X23_rotvec_of_quaternion_roundtrip_witness :
  unit_quat [1; 0; 0; 0]
  /\ small_angle_threshold < as_rotvec_angle (flip_row [1; 0; 0; 0])
  /\ from_rotvec (as_rotvec (mkRotation true [ [1; 0; 0; 0] ]))
     = Ok (mkRotation true [flip_row [1; 0; 0; 0] ]).
Proof.
  assert (Hu : unit_quat [1; 0; 0; 0]).
  { split; [reflexivity | unfold Rsum; simpl; lra]. }
  assert (Hb : small_angle_threshold < as_rotvec_angle (flip_row [1; 0; 0; 0])).
  { unfold flip_row. cbn [idx nth]. rewrite Rltb_false by lra.
    unfold as_rotvec_angle. cbn [firstn idx nth].
    destruct (norm_axis 1) as [-> _]. rewrite Rabs_R1.
    replace 1 with (sin (PI / 2)) at 1 by apply sin_PI2.
    replace 0 with (cos (PI / 2)) by apply cos_PI2.
    rewrite arctan2_sin_cos by (pose proof PI_bounds; lra).
    pose proof PI_bounds. unfold small_angle_threshold. lra. }
  split; [exact Hu |]. split; [exact Hb |].
  exact (proj1 (X23_rotvec_of_quaternion_roundtrip [1; 0; 0; 0] Hu Hb)).
Defined.

(** ** [from_euler]: batches and periodicity *)





Lemma make_dcm_from_angle_period (c : ascii) (a : R) (i : bool) :
  _make_dcm_from_angle c (a + 2 * PI) i = _make_dcm_from_angle c a i.
Proof.
  unfold _make_dcm_from_angle.
  rewrite sin_plus, cos_plus, sin_2PI, cos_2PI.
  replace (sin a * 1 + cos a * 0) with (sin a) by ring.
  replace (cos a * 1 - sin a * 0) with (cos a) by ring.
  reflexivity.
Qed.

Lemma for_each_ext {A S : Type} (f g : S -> A -> result S) (xs : list A) :
  (forall acc x, f acc x = g acc x) ->
  forall acc, for_each f xs acc = for_each g xs acc.
Proof.
  intros H. induction xs as [| x xs IH]; intros acc; [reflexivity |].
  simpl. rewrite H. destruct (g acc x); simpl; [apply IH | reflexivity].
Qed.

Lemma make_dcm_from_angle_idx_period (c : ascii) (angle : list R) (ind : nat)
      (i : bool) :
  _make_dcm_from_angle c (idx (map (fun a => a + 2 * PI) angle) ind) i
  = _make_dcm_from_angle c (idx angle ind) i.
Proof.
  unfold idx. destruct (Nat.lt_ge_cases ind (length angle)) as [Hlt | Hge].
  - rewrite (nth_indep _ 0 (0 + 2 * PI)) by (rewrite length_map; exact Hlt).
    rewrite (map_nth (fun a => a + 2 * PI)). apply make_dcm_from_angle_period.
  - rewrite !nth_overflow by (rewrite ?length_map; exact Hge). reflexivity.
Qed.

Lemma make_dcm_from_euler_period (s : string) (angle : list R) :
  _make_dcm_from_euler s (map (fun a => a + 2 * PI) angle)
  = _make_dcm_from_euler s angle.
Proof.
  unfold _make_dcm_from_euler. rewrite length_map.
  destruct (negb (String.length s =? length angle)%nat); [reflexivity |].
  destruct (negb (re_match extrinsic_re s) && negb (re_match intrinsic_re s));
    [reflexivity |].
  destruct (re_match extrinsic_re s); [| destruct (re_match intrinsic_re s)];
    try reflexivity;
    apply for_each_ext; intros acc [ind c];
    rewrite make_dcm_from_angle_idx_period; reflexivity.
Qed.

Lemma ndarray_map_map (f g : R -> R) (a : ndarray) :
  ndarray_map f (ndarray_map g a) = ndarray_map (fun x => f (g x)) a.
Proof.
  destruct a; simpl; f_equal; rewrite ?map_map; try reflexivity.
  - apply map_ext. intros r. apply map_map.
  - apply map_ext. intros m. rewrite map_map. apply map_ext. intros r.
    apply map_map.
Qed.

Lemma ndarray_map_ext (f g : R -> R) (a : ndarray) :
  (forall x, f x = g x) -> ndarray_map f a = ndarray_map g a.
Proof.
  intros H. destruct a; simpl; f_equal; auto.
  - apply map_ext, H.
  - apply map_ext. intros r. apply map_ext, H.
  - apply map_ext. intros m. apply map_ext. intros r. apply map_ext, H.
Qed.

Lemma from_euler_period_rad (seq : seq_arg) (angle_mat : ndarray) :
  from_euler seq (ndarray_map (fun a => a + 2 * PI) angle_mat) false
  = from_euler seq angle_mat false.
Proof.
  unfold from_euler. cbv iota.
  assert (Hs : shape_first (ndarray_map (fun a => a + 2 * PI) angle_mat)
               = shape_first angle_mat)
    by (unfold shape_first; rewrite shape_ndarray_map; reflexivity).
  assert (Hl : shape_last (ndarray_map (fun a => a + 2 * PI) angle_mat)
               = shape_last angle_mat)
    by (unfold shape_last; rewrite shape_ndarray_map; reflexivity).
  assert (Hn : ndim (ndarray_map (fun a => a + 2 * PI) angle_mat)
               = ndim angle_mat) by (destruct angle_mat; reflexivity).
  rewrite Hs, Hl, Hn, rows_of_map.
  destruct seq as [s | seqs]; destruct (shape_first angle_mat) as [n0 |];
    cbn [bind]; try reflexivity.
  - destruct (negb (String.length s =? n0)%nat || negb (ndim angle_mat =? 1)%nat)
      eqn:Eb; [reflexivity |].
    destruct angle_mat as [x | v | n1 m | n1 n2 t]; try discriminate;
      cbn in Eb; try (rewrite orb_true_r in Eb; discriminate).
    cbn [rows_of map nth]. rewrite make_dcm_from_euler_period. reflexivity.
  - destruct (negb (length seqs =? n0)%nat); [reflexivity |].
    match goal with
    | |- (if ?b then _ else _) = _ => destruct b; [reflexivity |]
    end.
    f_equal.
    generalize (rows_of angle_mat). intros rows. revert rows.
    induction seqs as [| s seqs IH]; intros [| row rows]; try reflexivity.
    cbn [map combine map_result fst snd].
    rewrite make_dcm_from_euler_period, IH. reflexivity.
Qed.

(** X25: [from_euler] takes its angles modulo a full turn: adding 2 pi to
    every angle given in radians, or 360 to every angle given in degrees,
    gives the same result, rotation or error. *)
Theorem X25_from_euler_periodic (seq : seq_arg) (angle_mat : ndarray) :
  from_euler seq (ndarray_map (fun a => a + 2 * PI) angle_mat) false
  = from_euler seq angle_mat false
  /\ from_euler seq (ndarray_map (fun a => a + 360) angle_mat) true
     = from_euler seq angle_mat true.
Proof.
  split; [apply from_euler_period_rad |].
  rewrite !from_euler_deg, ndarray_map_map.
  rewrite <- (from_euler_period_rad seq (ndarray_map deg2rad angle_mat)).
  rewrite ndarray_map_map. f_equal.
  apply ndarray_map_ext. intros x. unfold deg2rad. field.
Qed.
